(** * PodGoImg: bounded-concurrency image pipeline (main.go)

    A shallow embedding of [main.go].  The three helper functions
    [downloadImage], [resizeImage] and [saveImage] are pure functions over an
    explicit description of the outside world; [main] and the goroutines it
    starts are a small-step machine whose transitions are the statements of
    [main] (one transition per call or channel/WaitGroup operation), taken in
    any interleaving.

    Conventions of the model:
    - library calls answer as the [World] says, the same for the same
      arguments throughout a run;
    - a call of one of the three helper functions is one transition;
    - [log.Fatalf], a panic and the return of [main] end the process, after
      which no goroutine moves;
    - the file system maps paths of regular files to their content;
      directories are not tracked;
    - deferred [Close] calls (cursor, response body, output file) have no
      effect that the model observes;
    - every library call returns: a call that never does ([http.Get] is made
      without a timeout) is outside the model. *)

From stdpp Require Import gmap strings list fin_maps relations.

Open Scope string_scope.

(** ** Data *)

(** Go [error] values, as the text that [%v] prints. *)
Definition error := string.

(** A Go [(T, error)] return pair: either a value with a nil error, or an
    error. *)
Inductive result (A : Type) : Type :=
| Ok (a : A)
| Err (e : error).
Arguments Ok {A} a.
Arguments Err {A} e.

Definition is_Err {A : Type} (r : result A) : Prop :=
  match r with Ok _ => False | Err _ => True end.

Abbreviation bytes := (list Byte.byte).

(** The anonymous struct decoded from each catalog document (lines 55-58). *)
Record Podcast : Type := mkPodcast {
  PodlistUrl : string;
  Image : string
}.

(** [image.Image]: bounds and pixel payload. *)
Record image_Image : Type := mkImage {
  Dx : N;
  Dy : N;
  Pix : bytes
}.

(** The interpolation functions of [github.com/nfnt/resize]. *)
Inductive InterpolationFunction : Type :=
| NearestNeighbor | Bilinear | Bicubic | MitchellNetravali | Lanczos2 | Lanczos3.

(** [*http.Response] as far as [downloadImage] can observe it: the status
    code (never read by the program) and what [io.ReadAll(resp.Body)]
    returns. *)
Record Response : Type := mkResponse {
  StatusCode : Z;
  Body : result bytes
}.

(** File system: regular files by path. *)
Abbreviation FS := (gmap string bytes).

(** ** The outside world

    Everything [main.go] calls but does not define: the MongoDB driver, the
    HTTP client, the image codecs, the resize library and the operating
    system. *)
Record World : Type := mkWorld {
  (** [mongo.Connect] *)
  mongo_Connect : option error;
  (** [collection.Find] *)
  collection_Find : option error;
  (** [os.MkdirAll("img", os.ModePerm)] *)
  os_MkdirAll : option error;
  (** the documents the cursor yields, each with what [cur.Decode] returns *)
  cursor_docs : list (result Podcast);
  (** [cur.Err()] once [cur.Next] has returned false *)
  cursor_Err : option error;
  (** [http.Get] *)
  http_Get : string -> result Response;
  (** [image.Decode] *)
  image_Decode : bytes -> result image_Image;
  (** [resize.Resize] *)
  resize_Resize : N -> N -> image_Image -> InterpolationFunction -> image_Image;
  (** [filepath.Join] of two elements *)
  filepath_Join : string -> string -> string;
  (** [os.Create]: [None] when the file is created or truncated *)
  os_Create : string -> option error;
  (** [jpeg.Encode] at a quality: the bytes that reached the writer and the
      error returned *)
  jpeg_Encode : image_Image -> Z -> bytes * option error;
  (** files present when the program starts *)
  initial_fs : FS
}.

(** ** The helper functions of main.go *)

Section Program.
Variable W : World.

(** [downloadImage] (lines 105-122). *)
Definition downloadImage (url : string) : result image_Image :=
  match http_Get W url with
  | Err err => Err ("failed to get image: " +:+ err)
  | Ok resp =>
      match Body resp with
      | Err err => Err ("failed to read image data: " +:+ err)
      | Ok imgData =>
          match image_Decode W imgData with
          | Err err => Err ("failed to decode image: " +:+ err)
          | Ok img => Ok img
          end
      end
  end.

(** [resizeImage] (lines 124-126). *)
Definition resizeImage (img : image_Image) (width height : N) : result image_Image :=
  Ok (resize_Resize W width height img Lanczos3).

(** [saveImage] (lines 128-137): [os.Create] truncates the file to empty,
    then [jpeg.Encode] writes into it. *)
Definition saveImage (img : image_Image) (path : string) (fs : FS) : FS * option error :=
  match os_Create W path with
  | Some err => (fs, Some ("failed to create file: " +:+ err))
  | None =>
      let out := <[path := []]> fs in
      let '(written, err) := jpeg_Encode W img 75 in
      (<[path := written]> out, err)
  end.

End Program.

(** ** The machine: main and its goroutines *)

(** Where a goroutine started at line 68 stands.  The two deferred calls run
    last-registered first: the token is given back (line 73), then
    [wg.Done()] (line 72). *)
Inductive taskpc : Type :=
| TDownload                              (* line 76: downloadImage *)
| TResize (imageData : image_Image)      (* line 83: resizeImage *)
| TSave (resizedImg : image_Image)       (* line 90: saveImage *)
| TRelease                               (* line 73: <-sem *)
| TDone                                  (* line 72: wg.Done() *)
| TFinished.

Record task : Type := mkTask {
  arg : Podcast;          (* the [podcast] argument, copied at the go statement *)
  tpc : taskpc
}.

(** Where [main] stands; the cursor position is the list of documents not yet
    returned by [cur.Next]. *)
Inductive mainpc : Type :=
| MConnect                                             (* line 25 *)
| MFind                                                (* line 40 *)
| MMkdir                                               (* line 47 *)
| MNext (cur : list (result Podcast))                  (* lines 54-64 *)
| MAdd (podcast : Podcast) (cur : list (result Podcast))      (* line 66 *)
| MAcquire (podcast : Podcast) (cur : list (result Podcast))  (* line 67 *)
| MGo (podcast : Podcast) (cur : list (result Podcast))       (* line 68 *)
| MErr                                                 (* line 97 *)
| MWait                                                (* line 101 *)
| MPrintln                                             (* line 102 *)
| MExit (code : Z).                                    (* process over *)

Record state : Type := mkState {
  mpc : mainpc;
  tasks : list task;        (* goroutines, in the order they were started *)
  sem : nat;                (* elements buffered in channel [sem] *)
  wg : nat;                 (* counter of [wg] *)
  fs : FS;
  logs : list string;       (* lines written by package log *)
  out : list string         (* lines written to standard output *)
}.

(** Capacity of [sem] (line 52). *)
Definition sem_cap : nat := 10.

Definition set_mpc (pc : mainpc) (s : state) : state :=
  mkState pc (tasks s) (sem s) (wg s) (fs s) (logs s) (out s).

Definition set_tpc (i : nat) (pc : taskpc) (s : state) : state :=
  mkState (mpc s) (alter (fun t => mkTask (arg t) pc) i (tasks s))
          (sem s) (wg s) (fs s) (logs s) (out s).

Definition spawn (t : task) (s : state) : state :=
  mkState (mpc s) (tasks s ++ [t]) (sem s) (wg s) (fs s) (logs s) (out s).

Definition set_sem (n : nat) (s : state) : state :=
  mkState (mpc s) (tasks s) n (wg s) (fs s) (logs s) (out s).

Definition set_wg (n : nat) (s : state) : state :=
  mkState (mpc s) (tasks s) (sem s) n (fs s) (logs s) (out s).

Definition set_fs (f : FS) (s : state) : state :=
  mkState (mpc s) (tasks s) (sem s) (wg s) f (logs s) (out s).

(** [log.Printf] *)
Definition log_Printf (line : string) (s : state) : state :=
  mkState (mpc s) (tasks s) (sem s) (wg s) (fs s) (logs s ++ [line]) (out s).

(** [log.Fatalf]: print, then [os.Exit(1)]. *)
Definition log_Fatalf (line : string) (s : state) : state :=
  set_mpc (MExit 1) (log_Printf line s).

(** [fmt.Println] *)
Definition fmt_Println (line : string) (s : state) : state :=
  mkState (mpc s) (tasks s) (sem s) (wg s) (fs s) (logs s) (out s ++ [line]).

(** A run-time panic ends the process with status 2. *)
Definition panic (line : string) (s : state) : state :=
  set_mpc (MExit 2) (log_Printf ("panic: " +:+ line) s).

Definition exited (s : state) : bool :=
  match mpc s with MExit _ => true | _ => false end.

Section Machine.
Variable W : World.

Definition init : state :=
  mkState MConnect [] 0 0 (initial_fs W) [] [].

(** One statement of [main].  [None]: main is blocked, or the process is
    over. *)
Definition main_step (s : state) : option state :=
  match mpc s with
  | MConnect =>
      match mongo_Connect W with
      | Some err => Some (log_Fatalf ("Failed to connect to MongoDB: " +:+ err) s)
      | None => Some (set_mpc MFind s)
      end
  | MFind =>
      match collection_Find W with
      | Some err => Some (log_Fatalf ("Failed to find documents: " +:+ err) s)
      | None => Some (set_mpc MMkdir s)
      end
  | MMkdir =>
      match os_MkdirAll W with
      | Some err => Some (log_Fatalf ("Failed to create directory: " +:+ err) s)
      | None => Some (set_mpc (MNext (cursor_docs W)) s)
      end
  | MNext [] => Some (set_mpc MErr s)
  | MNext (Err err :: cur) =>
      Some (set_mpc (MNext cur) (log_Printf ("Failed to decode document: " +:+ err) s))
  | MNext (Ok podcast :: cur) => Some (set_mpc (MAdd podcast cur) s)
  | MAdd podcast cur => Some (set_mpc (MAcquire podcast cur) (set_wg (S (wg s)) s))
  | MAcquire podcast cur =>
      if decide (sem s < sem_cap)
      then Some (set_mpc (MGo podcast cur) (set_sem (S (sem s)) s))
      else None
  | MGo podcast cur => Some (set_mpc (MNext cur) (spawn (mkTask podcast TDownload) s))
  | MErr =>
      match cursor_Err W with
      | Some err => Some (log_Fatalf ("Cursor error: " +:+ err) s)
      | None => Some (set_mpc MWait s)
      end
  | MWait =>
      match wg s with
      | 0 => Some (set_mpc MPrintln s)
      | S _ => None
      end
  | MPrintln => Some (set_mpc (MExit 0) (fmt_Println "All images processed." s))
  | MExit _ => None
  end.

(** One statement of goroutine [i].  [None]: no such goroutine, it has
    returned, it is blocked, or the process is over. *)
Definition task_step (i : nat) (s : state) : option state :=
  if exited s then None else
  match tasks s !! i with
  | None => None
  | Some t =>
      let podcast := arg t in
      match tpc t with
      | TDownload =>
          match downloadImage W (Image podcast) with
          | Err err =>
              Some (set_tpc i TRelease
                      (log_Printf ("Failed to download image: " +:+ Image podcast
                                     +:+ ", error: " +:+ err) s))
          | Ok imageData => Some (set_tpc i (TResize imageData) s)
          end
      | TResize imageData =>
          match resizeImage W imageData 800 800 with
          | Err err =>
              Some (set_tpc i TRelease (log_Printf ("Failed to resize image: " +:+ err) s))
          | Ok resizedImg => Some (set_tpc i (TSave resizedImg) s)
          end
      | TSave resizedImg =>
          let '(fs', err) :=
            saveImage W resizedImg
                      (filepath_Join W "img" (PodlistUrl podcast +:+ ".jpg")) (fs s) in
          match err with
          | Some err =>
              Some (set_tpc i TRelease
                      (log_Printf ("Failed to save image: " +:+ err) (set_fs fs' s)))
          | None => Some (set_tpc i TRelease (set_fs fs' s))
          end
      | TRelease =>
          match sem s with
          | 0 => None
          | S n => Some (set_tpc i TDone (set_sem n s))
          end
      | TDone =>
          match wg s with
          | 0 => Some (panic "sync: negative WaitGroup counter" s)
          | S n => Some (set_tpc i TFinished (set_wg n s))
          end
      | TFinished => None
      end
  end.

(** Any goroutine that can move may move next. *)
Definition step (s s' : state) : Prop :=
  main_step s = Some s' \/ exists i, task_step i s = Some s'.

Definition reachable (s : state) : Prop := rtc step init s.

(** Schedules: which goroutine moves at each turn. *)
Inductive turn : Type :=
| Main
| Task (i : nat).

Definition turn_step (c : turn) (s : state) : option state :=
  match c with
  | Main => main_step s
  | Task i => task_step i s
  end.

Fixpoint run (sched : list turn) (s : state) : option state :=
  match sched with
  | [] => Some s
  | c :: sched' =>
      match turn_step c s with
      | Some s' => run sched' s'
      | None => None
      end
  end.

End Machine.

(** ** Observations on states *)

Fixpoint count {A : Type} (f : A -> bool) (l : list A) : nat :=
  match l with
  | [] => 0
  | x :: l' => Nat.b2n (f x) + count f l'
  end.

(** A goroutine holds the token main acquired for it until its deferred
    receive from [sem] has run. *)
Definition holds_token (t : task) : bool :=
  match tpc t with
  | TDownload | TResize _ | TSave _ | TRelease => true
  | TDone | TFinished => false
  end.

(** A goroutine is outstanding until its [wg.Done()] has run. *)
Definition outstanding (t : task) : bool :=
  match tpc t with
  | TFinished => false
  | _ => true
  end.

Definition executing (s : state) : nat := count holds_token (tasks s).

Definition unfinished (s : state) : nat := count outstanding (tasks s).

(** Between lines 67 and 68 main has put a token in [sem] for a goroutine
    that does not exist yet. *)
Definition token_in_hand (pc : mainpc) : nat :=
  match pc with
  | MGo _ _ => 1
  | _ => 0
  end.

(** Between lines 66 and 68 [wg] already counts the goroutine about to be
    started. *)
Definition registered_unstarted (pc : mainpc) : nat :=
  match pc with
  | MAcquire _ _ | MGo _ _ => 1
  | _ => 0
  end.

(** The body of the goroutine has returned; only deferred calls are left. *)
Definition returning (pc : taskpc) : bool :=
  match pc with
  | TRelease | TDone | TFinished => true
  | TDownload | TResize _ | TSave _ => false
  end.

(** [wg.Wait()] has returned. *)
Definition wait_returned (pc : mainpc) : bool :=
  match pc with
  | MPrintln | MExit 0 => true
  | _ => false
  end.

(** The process ended through [log.Fatalf] or a panic. *)
Definition aborted (pc : mainpc) : bool :=
  match pc with
  | MExit 0 => false
  | MExit _ => true
  | _ => false
  end.

(** The records that decode. *)
Fixpoint oks (docs : list (result Podcast)) : list Podcast :=
  match docs with
  | [] => []
  | Ok p :: docs' => p :: oks docs'
  | Err _ :: docs' => oks docs'
  end.

(** The decodable records main has not started a goroutine for yet. *)
Definition undispatched (W : World) (pc : mainpc) : list Podcast :=
  match pc with
  | MConnect | MFind | MMkdir => oks (cursor_docs W)
  | MNext cur => oks cur
  | MAdd p cur | MAcquire p cur | MGo p cur => p :: oks cur
  | MErr | MWait | MPrintln | MExit _ => []
  end.

(** What the statements after [wg.Wait()] have in scope to build a summary
    from: the WaitGroup, the channel, and what was printed so far. *)
Definition summary_view (s : state) : nat * nat * list string :=
  (wg s, sem s, out s).

(** Whether the body of the goroutine for record [p] gets through download,
    resize and save without an error. *)
Definition task_succeeds (W : World) (p : Podcast) : bool :=
  match downloadImage W (Image p) with
  | Err _ => false
  | Ok imageData =>
      match resizeImage W imageData 800 800 with
      | Err _ => false
      | Ok resizedImg =>
          match snd (saveImage W resizedImg
                       (filepath_Join W "img" (PodlistUrl p +:+ ".jpg")) ∅) with
          | Some _ => false
          | None => true
          end
      end
  end.

Definition succeeded_count (W : World) : nat :=
  count (task_succeeds W) (oks (cursor_docs W)).

Definition failed_count (W : World) : nat :=
  count (fun p => negb (task_succeeds W p)) (oks (cursor_docs W)).

(** A log line reporting a resize failure (line 85). *)
Definition resize_failure_line (line : string) : bool :=
  String.prefix "Failed to resize image: " line.

(** ** Properties as the specification words them *)

(** A non-2xx response makes the download fail. *)
Definition non_2xx_fails (W : World) : Prop :=
  forall url resp,
    http_Get W url = Ok resp ->
    ~ (200 <= StatusCode resp < 300)%Z ->
    is_Err (downloadImage W url).

(** When the cursor fails, the process is not over before every goroutine
    it started has run to its end. *)
Definition drains_before_exit (W : World) : Prop :=
  is_Some (cursor_Err W) ->
  forall s, reachable W s -> exited s = true ->
    forall t, t ∈ tasks s -> tpc t = TFinished.

(** Once [wg.Wait()] has returned, the numbers of succeeded and failed tasks
    can be read off what the program has in scope. *)
Definition counts_available : Prop :=
  exists report : nat * nat * list string -> nat * nat,
    forall W s, reachable W s -> mpc s = MPrintln ->
      report (summary_view s) = (succeeded_count W, failed_count W).

(** [sub] occurs in [s]. *)
Fixpoint contains (sub s : string) : bool :=
  String.prefix sub s ||
  match s with
  | EmptyString => false
  | String _ s' => contains sub s'
  end.

(** The line logged for a failed download names the locator and the
    identifier of the record. *)
Definition failed_download_logs_identifier (W : World) : Prop :=
  forall s i p err s',
    exited s = false ->
    tasks s !! i = Some (mkTask p TDownload) ->
    downloadImage W (Image p) = Err err ->
    task_step W i s = Some s' ->
    exists line,
      last (logs s') = Some line /\
      contains (Image p) line = true /\ contains (PodlistUrl p) line = true.


(** ** The invariant of the machine *)

(** main is past the check of [cur.Err()] at line 97. *)
Definition past_error_check (pc : mainpc) : bool :=
  match pc with
  | MWait | MPrintln | MExit 0 => true
  | _ => false
  end.

(** One of the calls main guards with [log.Fatalf] fails. *)
Definition fatal_error (W : World) : Prop :=
  is_Some (mongo_Connect W) \/ is_Some (collection_Find W) \/
  is_Some (os_MkdirAll W) \/ is_Some (cursor_Err W).

Record inv (W : World) (s : state) : Prop := mkInv {
  (* every element buffered in [sem] belongs to a goroutine, or to the one
     main is about to start *)
  inv_sem : sem s = executing s + token_in_hand (mpc s);
  inv_cap : sem s <= sem_cap;
  (* [wg] counts the goroutines whose Done has not run, plus the one
     registered and not yet started *)
  inv_wg : wg s = unfinished s + registered_unstarted (mpc s);
  inv_wait : wait_returned (mpc s) = true -> unfinished s = 0;
  (* goroutines are started for the decodable records, in cursor order *)
  inv_docs : aborted (mpc s) = false ->
             ((arg <$> tasks s) ++ undispatched W (mpc s))%list = oks (cursor_docs W);
  inv_prefix : (arg <$> tasks s) `prefix_of` oks (cursor_docs W);
  inv_fatal : is_Some (cursor_Err W) -> past_error_check (mpc s) = false;
  (* only the four fatal checks of main end the process abnormally *)
  inv_abort : aborted (mpc s) = true -> fatal_error W;
  inv_out : out s = match mpc s with
                    | MExit 0 => ["All images processed."]
                    | _ => []
                    end;
  inv_logs : forall line, line ∈ logs s -> resize_failure_line line = false
}.

(** ** A bound on the number of steps left

    Every statement of a goroutine and of main is given a weight, and a
    record not yet fetched from the cursor the weight of its loop round plus
    that of its goroutine. *)

Definition task_weight (t : task) : nat :=
  match tpc t with
  | TDownload => 5
  | TResize _ => 4
  | TSave _ => 3
  | TRelease => 2
  | TDone => 1
  | TFinished => 0
  end.

Fixpoint total_weight (ts : list task) : nat :=
  match ts with
  | [] => 0
  | t :: ts' => task_weight t + total_weight ts'
  end.

Definition main_weight (W : World) (pc : mainpc) : nat :=
  match pc with
  | MConnect => 9 * length (cursor_docs W) + 7
  | MFind => 9 * length (cursor_docs W) + 6
  | MMkdir => 9 * length (cursor_docs W) + 5
  | MNext cur => 9 * length cur + 4
  | MAdd _ cur => 9 * length cur + 12
  | MAcquire _ cur => 9 * length cur + 11
  | MGo _ cur => 9 * length cur + 10
  | MErr => 3
  | MWait => 2
  | MPrintln => 1
  | MExit _ => 0
  end.

Definition steps_left (W : World) (s : state) : nat :=
  main_weight W (mpc s) + total_weight (tasks s).

(** ** Concrete worlds *)

Definition photo_bytes : bytes :=
  [Byte.xff; Byte.xd8; Byte.xff; Byte.xe0].

Definition html_bytes : bytes :=
  [Byte.x3c; Byte.x68; Byte.x31; Byte.x3e].

Definition jpeg_bytes : bytes :=
  [Byte.xff; Byte.xd8; Byte.xff; Byte.xd9].

Definition cover : image_Image := mkImage 1400 1000 photo_bytes.

Definition demo_Get (url : string) : result Response :=
  if String.eqb url "http://cdn/ok.jpg" then Ok (mkResponse 200 (Ok photo_bytes))
  else if String.eqb url "http://cdn/gone.jpg" then Ok (mkResponse 404 (Ok photo_bytes))
  else if String.eqb url "http://cdn/gone.html" then Ok (mkResponse 404 (Ok html_bytes))
  else Err "dial tcp: no such host".

Definition demo_Decode (b : bytes) : result image_Image :=
  match b with
  | [Byte.xff; Byte.xd8; Byte.xff; Byte.xe0] => Ok cover
  | _ => Err "image: unknown format"
  end.

Definition demo_Resize (w h : N) (img : image_Image) (f : InterpolationFunction)
  : image_Image :=
  if ((0 <? Dx img) && (0 <? Dy img))%N then mkImage w h (Pix img) else img.

Definition demo_Join (a b : string) : string := a +:+ "/" +:+ b.

Definition demo_Encode (img : image_Image) (quality : Z) : bytes * option error :=
  (jpeg_bytes, None).

(** A disk that fills up after the JPEG header. *)
Definition full_Encode (img : image_Image) (quality : Z) : bytes * option error :=
  ([Byte.xff; Byte.xd8], Some "write img/a.jpg: no space left on device").

Definition demo_world (docs : list (result Podcast)) (cerr : option error) : World :=
  mkWorld None None None docs cerr demo_Get demo_Decode demo_Resize demo_Join
          (fun _ => None) demo_Encode ∅.

Definition rec_ok : Podcast := mkPodcast "a" "http://cdn/ok.jpg".
Definition rec_ok' : Podcast := mkPodcast "c" "http://cdn/ok.jpg".
Definition rec_down : Podcast := mkPodcast "b" "http://nowhere/x.jpg".
Definition rec_gone : Podcast := mkPodcast "d" "http://cdn/gone.jpg".

(** Scenario B of the specification, with an undecodable document added. *)
Definition world_mixed : World :=
  demo_world [Ok rec_ok; Err "bson: cannot decode"; Ok rec_down; Ok rec_ok'] None.

(** The cursor breaks after the first document. *)
Definition world_fatal : World :=
  demo_world [Ok rec_ok] (Some "connection lost").

(** A server that answers 404 with a placeholder picture. *)
Definition world_404 : World := demo_world [Ok rec_gone] None.

Definition world_one_ok : World := demo_world [Ok rec_ok] None.
Definition world_one_down : World := demo_world [Ok rec_down] None.

(** A second run over the same record: the output file is already there. *)
Definition world_rerun : World :=
  mkWorld None None None [Ok rec_ok] None demo_Get demo_Decode demo_Resize demo_Join
          (fun _ => None) demo_Encode {[ "img/a.jpg" := photo_bytes ]}.

(** The disk fills up while the file is being written; a file is already
    there. *)
Definition world_full : World :=
  mkWorld None None None [Ok rec_ok] None demo_Get demo_Decode demo_Resize demo_Join
          (fun _ => None) full_Encode {[ "img/a.jpg" := photo_bytes ]}.

(** A record whose locator cannot be reached and whose identifier is easy
    to recognise. *)
Definition rec_lost : Podcast := mkPodcast "show-42" "http://nowhere/x.jpg".
Definition world_lost : World := demo_world [Ok rec_lost] None.


(** ** Schedules and the states they lead to *)

(** The state a schedule leads to from the initial state (the initial state
    itself when the schedule asks a blocked goroutine to move). *)
Definition state_of (W : World) (sched : list turn) : state :=
  default (init W) (run W sched (init W)).

(** Lines 25-49. *)
Definition sched_setup : list turn := [Main; Main; Main].

(** One round of the loop for a record that decodes: [cur.Next] and
    [cur.Decode], [wg.Add(1)], the send on [sem], the go statement. *)
Definition sched_dispatch : list turn := [Main; Main; Main; Main].

(** A goroutine from its first statement to its return. *)
Definition sched_ok (i : nat) : list turn :=
  [Task i; Task i; Task i; Task i; Task i].
Definition sched_failed (i : nat) : list turn :=
  [Task i; Task i; Task i].

(** Scenario C of the specification with twelve records: ten goroutines are
    started and none has moved; main stands at the send for the eleventh. *)
Definition world_many : World := demo_world (replicate 12 (Ok rec_ok)) None.
Definition sched_saturate : list turn :=
  (sched_setup ++ concat (replicate 10 sched_dispatch) ++ [Main; Main])%list.

(** A complete run over [world_mixed], goroutines interleaved with main. *)
Definition sched_mixed : list turn :=
  (sched_setup ++ sched_dispatch ++ [Main] ++ sched_dispatch
     ++ [Task 0; Task 1] ++ sched_dispatch ++ [Main; Main]
     ++ [Task 0; Task 0; Task 0; Task 0; Task 1; Task 1]
     ++ sched_ok 2 ++ [Main; Main])%list.

(** The first goroutine is started and has not moved (in [world_mixed] the
    undecodable document comes next). *)
Definition sched_first_started : list turn := (sched_setup ++ sched_dispatch)%list.

(** [world_mixed] with the second goroutine (unreachable locator) about to
    download while the first one has not moved. *)
Definition sched_to_download : list turn :=
  (sched_setup ++ sched_dispatch ++ [Main] ++ sched_dispatch)%list.

(** The cursor error is found while the only goroutine has not moved. *)
Definition sched_fatal : list turn :=
  (sched_setup ++ sched_dispatch ++ [Main; Main])%list.
Definition sched_fatal_check : list turn :=
  (sched_setup ++ sched_dispatch ++ [Main])%list.

(** One record, run until [wg.Wait()] has returned. *)
Definition sched_one_ok : list turn :=
  (sched_setup ++ sched_dispatch ++ [Main; Main] ++ sched_ok 0 ++ [Main])%list.
Definition sched_one_failed : list turn :=
  (sched_setup ++ sched_dispatch ++ [Main; Main] ++ sched_failed 0 ++ [Main])%list.

(** One record, its goroutine at the resize, respectively at the save. *)
Definition sched_to_resize : list turn :=
  (sched_setup ++ sched_dispatch ++ [Task 0])%list.
Definition sched_to_save : list turn :=
  (sched_setup ++ sched_dispatch ++ [Task 0; Task 0])%list.

(** ** What reaches the disk and the log *)

(** One of the three calls before the loop fails. *)
Definition setup_failed (W : World) : Prop :=
  is_Some (mongo_Connect W) \/ is_Some (collection_Find W) \/
  is_Some (os_MkdirAll W).

(** main has not entered the loop of line 54, or left through one of the
    [log.Fatalf] calls. *)
Definition before_loop (pc : mainpc) : bool :=
  match pc with
  | MConnect | MFind | MMkdir | MExit 1 => true
  | _ => false
  end.

(** The path handed to [saveImage] at line 90. *)
Definition output_path (W : World) (p : Podcast) : string :=
  filepath_Join W "img" (PodlistUrl p +:+ ".jpg").

(** What the body of the goroutine for record [p] leaves at its output
    path, found by running lines 76-90 on an empty file system: nothing when
    the download fails or the file cannot be created. *)
Definition writes (W : World) (p : Podcast) : option (string * bytes) :=
  match downloadImage W (Image p) with
  | Err _ => None
  | Ok imageData =>
      match resizeImage W imageData 800 800 with
      | Err _ => None
      | Ok resizedImg =>
          (fun data => (output_path W p, data))
            <$> (saveImage W resizedImg (output_path W p) ∅).1 !! output_path W p
      end
  end.

(** The body of a goroutine for record [p] has returned. *)
Definition done_with (s : state) (p : Podcast) : Prop :=
  exists i t, tasks s !! i = Some t /\ returning (tpc t) = true /\ arg t = p.

(** Every file is as it was at the start unless one of the records in [D]
    writes it, and then it holds what one of them writes. *)
Definition files_ok (W : World) (D : Podcast -> Prop) (f : FS) : Prop :=
  forall q,
    (f !! q = initial_fs W !! q /\ forall p d, D p -> writes W p <> Some (q, d)) \/
    (exists p d, D p /\ writes W p = Some (q, d) /\ f !! q = Some d).

(** Records of the catalog that write the same path write the same bytes
    (as they do when identifiers are unique). *)
Definition outputs_agree (W : World) : Prop :=
  forall p p' q d d',
    p ∈ oks (cursor_docs W) -> p' ∈ oks (cursor_docs W) ->
    writes W p = Some (q, d) -> writes W p' = Some (q, d') -> d = d'.

(** The documents that do not decode. *)
Fixpoint errs (docs : list (result Podcast)) : nat :=
  match docs with
  | [] => 0
  | Ok _ :: docs' => errs docs'
  | Err _ :: docs' => S (errs docs')
  end.

(** The undecodable documents main has not come to yet. *)
Definition errs_left (W : World) (pc : mainpc) : nat :=
  match pc with
  | MConnect | MFind | MMkdir => errs (cursor_docs W)
  | MNext cur | MAdd _ cur | MAcquire _ cur | MGo _ cur => errs cur
  | MErr | MWait | MPrintln | MExit _ => 0
  end.

(** The body of the goroutine has returned after logging a failure. *)
Definition logged_failure (W : World) (t : task) : bool :=
  returning (tpc t) && negb (task_succeeds W (arg t)).

(** The image a goroutine carries from one statement to the next is the one
    it downloaded from its own locator, resized once it is at the save. *)
Definition carries_own_image (W : World) (t : task) : Prop :=
  match tpc t with
  | TResize imageData => downloadImage W (Image (arg t)) = Ok imageData
  | TSave resizedImg =>
      exists imageData,
        downloadImage W (Image (arg t)) = Ok imageData /\
        resizedImg = resize_Resize W 800 800 imageData Lanczos3
  | _ => True
  end.

(** The calls before the loop that main is past have succeeded. *)
Definition setup_passed (W : World) (pc : mainpc) : Prop :=
  match pc with
  | MConnect | MExit _ => True
  | MFind => mongo_Connect W = None
  | MMkdir => mongo_Connect W = None /\ collection_Find W = None
  | _ => ~ setup_failed W
  end.

Record inv_io (W : World) (s : state) : Prop := mkInvIo {
  io_carry : forall t, t ∈ tasks s -> carries_own_image W t;
  io_logs : aborted (mpc s) = false ->
            length (logs s) + errs_left W (mpc s)
            = errs (cursor_docs W) + count (logged_failure W) (tasks s);
  io_files : files_ok W (done_with s) (fs s);
  io_code : forall code, mpc s = MExit code -> code = 0%Z \/ code = 1%Z;
  io_passed : setup_passed W (mpc s);
  io_setup : setup_failed W ->
             before_loop (mpc s) = true /\ tasks s = [] /\ sem s = 0 /\ wg s = 0 /\
             fs s = initial_fs W /\ out s = [] /\
             length (logs s) = (if exited s then 1 else 0)
}.

(** The same world with other files at the start. *)
Definition rerun (W : World) (f : FS) : World :=
  mkWorld (mongo_Connect W) (collection_Find W) (os_MkdirAll W) (cursor_docs W)
          (cursor_Err W) (http_Get W) (image_Decode W) (resize_Resize W)
          (filepath_Join W) (os_Create W) (jpeg_Encode W) f.

(** The database cannot be reached; some files are on disk. *)
Definition world_no_db : World :=
  mkWorld (Some "connection refused") None None [Ok rec_ok] None demo_Get
          demo_Decode demo_Resize demo_Join (fun _ => None) demo_Encode
          {[ "img/a.jpg" := photo_bytes ]}.

(** The output directory cannot be created. *)
Definition world_no_dir : World :=
  mkWorld None None (Some "mkdir img: permission denied") [Ok rec_ok] None demo_Get
          demo_Decode demo_Resize demo_Join (fun _ => None) demo_Encode ∅.

(** The output directory is read-only. *)
Definition world_readonly : World :=
  mkWorld None None None [Ok rec_ok] None demo_Get demo_Decode demo_Resize demo_Join
          (fun _ => Some "open img/a.jpg: permission denied") demo_Encode
          {[ "img/a.jpg" := photo_bytes ]}.

(** A complete run over [world_mixed] in which every goroutine runs to its
    end before main moves on. *)
Definition sched_mixed_serial : list turn :=
  (sched_setup ++ sched_dispatch ++ sched_ok 0 ++ [Main] ++ sched_dispatch
     ++ sched_failed 1 ++ sched_dispatch ++ sched_ok 2
     ++ [Main; Main; Main; Main])%list.

(** Unfold one statement of a goroutine whose position is known. *)
Ltac at_task Hex Hi := unfold task_step; rewrite Hex, Hi; simpl.

(** ** Counting lemmas *)

Lemma count_app {A : Type} (f : A -> bool) (l1 l2 : list A) :
  count f (l1 ++ l2) = count f l1 + count f l2.
Proof.
  induction l1 as [|x l1 IH]; simpl; [done|].
  rewrite IH. lia.
Qed.

Lemma count_alter {A : Type} (f : A -> bool) (g : A -> A) (l : list A) i x :
  l !! i = Some x ->
  count f (alter g i l) + Nat.b2n (f x) = count f l + Nat.b2n (f (g x)).
Proof.
  revert i. induction l as [|y l IH]; intros [|i] Hi; simpl in *; try done.
  - injection Hi as ->. lia.
  - specialize (IH i Hi). unfold alter in IH. lia.
Qed.

Lemma count_zero_lookup {A : Type} (f : A -> bool) (l : list A) i x :
  count f l = 0 -> l !! i = Some x -> f x = false.
Proof.
  revert i. induction l as [|y l IH]; intros [|i] Hc Hi; simpl in *; try done.
  - injection Hi as ->. destruct (f x); [simpl in Hc; lia|done].
  - apply (IH i); [|done]. lia.
Qed.

Lemma count_lookup_pos {A : Type} (f : A -> bool) (l : list A) i x :
  l !! i = Some x -> f x = true -> 0 < count f l.
Proof.
  intros Hi Hf. destruct (count f l) eqn:Hc; [|lia].
  rewrite (count_zero_lookup f l i x Hc Hi) in Hf. done.
Qed.

Lemma count_pos_lookup {A : Type} (f : A -> bool) (l : list A) :
  0 < count f l -> exists i x, l !! i = Some x /\ f x = true.
Proof.
  induction l as [|y l IH]; simpl; [lia|].
  destruct (f y) eqn:Hy; simpl.
  - intros _. by exists 0, y.
  - intros Hpos. destruct IH as (i & x & Hi & Hx); [lia|].
    by exists (S i), x.
Qed.

Lemma fmap_arg_alter (pc : taskpc) i (l : list task) :
  arg <$> alter (fun t => mkTask (arg t) pc) i l = arg <$> l.
Proof.
  revert i. induction l as [|y l IH]; intros [|i]; simpl; try done.
  f_equal. apply IH.
Qed.

Lemma outstanding_finished (t : task) :
  outstanding t = false -> tpc t = TFinished.
Proof. unfold outstanding. by destruct (tpc t). Qed.

Lemma holds_token_outstanding (t : task) :
  holds_token t = true -> outstanding t = true.
Proof. unfold holds_token, outstanding. by destruct (tpc t). Qed.

(** ** Schedules produce reachable states *)

Lemma turn_step_step W c s s' : turn_step W c s = Some s' -> step W s s'.
Proof.
  destruct c as [|i]; simpl; intros H; [by left|right; by exists i].
Qed.

Lemma run_rtc W sched s s' : run W sched s = Some s' -> rtc (step W) s s'.
Proof.
  revert s. induction sched as [|c sched IH]; intros s; simpl.
  - intros [= ->]. apply rtc_refl.
  - destruct (turn_step W c s) as [s1|] eqn:Hc; [|done].
    intros Hrun. eapply rtc_l; [by eapply turn_step_step|by apply IH].
Qed.

Lemma run_reachable W sched s :
  run W sched (init W) = Some s -> reachable W s.
Proof. apply run_rtc. Qed.

Lemma exited_no_step W s s' : exited s = true -> ~ step W s s'.
Proof.
  intros He [Hm|[i Ht]].
  - unfold main_step in Hm. unfold exited in He. by destruct (mpc s).
  - unfold task_step in Ht. by rewrite He in Ht.
Qed.

Lemma state_of_reachable W sched : reachable W (state_of W sched).
Proof.
  unfold state_of. destruct (run W sched (init W)) as [s|] eqn:Hrun; simpl.
  - by eapply run_reachable.
  - apply rtc_refl.
Qed.

(** ** The invariant holds in every reachable state *)

Lemma inv_init W : inv W (init W).
Proof.
  split; simpl; try done.
  - unfold sem_cap. lia.
  - apply prefix_nil.
  - intros line Hin. by apply elem_of_nil in Hin.
Qed.

Lemma logs_snoc (lg : list string) (x : string) :
  (forall line, line ∈ lg -> resize_failure_line line = false) ->
  resize_failure_line x = false ->
  forall line, line ∈ (lg ++ [x])%list -> resize_failure_line line = false.
Proof.
  intros Hlg Hx line [Hin|Hin%list_elem_of_singleton]%elem_of_app;
    [by apply Hlg|by subst].
Qed.

Lemma inv_main_step W s s' : inv W s -> main_step W s = Some s' -> inv W s'.
Proof.
  intros [Hsem Hcap Hwg Hwait Hdocs Hpre Hfatal Habort Hout Hlogs] Hstep.
  destruct s as [pc ts sm w f lg o].
  unfold main_step, executing, unfinished in *; simpl in *.
  destruct pc; repeat case_match; simplify_eq;
    split; unfold executing, unfinished; simpl in *;
    try done; try lia; try (intros; apply Hdocs; done);
    try (eapply logs_snoc; [exact Hlogs|reflexivity]);
    try (rewrite ?count_app; simpl; lia);
    try (intros _; unfold fatal_error;
         match goal with H : _ = Some _ |- _ => rewrite H end; eauto 6; fail).
  - intros _. rewrite fmap_app, <- app_assoc. simpl. by apply Hdocs.
  - rewrite fmap_app. simpl. rewrite <- Hdocs by done.
    apply prefix_app, prefix_cons, prefix_nil.
  - intros [e He]. congruence.
Qed.

Lemma inv_task_step W i s s' : inv W s -> task_step W i s = Some s' -> inv W s'.
Proof.
  intros [Hsem Hcap Hwg Hwait Hdocs Hpre Hfatal Habort Hout Hlogs] Hstep.
  destruct s as [pc ts sm w f lg o].
  unfold task_step, exited, executing, unfinished in *; simpl in *.
  destruct (ts !! i) as [[p tp]|] eqn:Hi; [|by destruct pc].
  assert (Hpos : outstanding (mkTask p tp) = true -> 0 < count outstanding ts)
    by apply (count_lookup_pos _ _ _ _ Hi).
  pose proof (fun g => count_alter holds_token g ts i _ Hi) as Hh.
  pose proof (fun g => count_alter outstanding g ts i _ Hi) as Ho.
  unfold resizeImage in Hstep.
  destruct pc; try done;
    destruct tp; repeat case_match; simplify_eq;
    try (specialize (Hpos eq_refl));
    (split; unfold executing, unfinished; simpl in *;
     rewrite ?fmap_arg_alter;
     try match goal with
         | |- context [alter ?g i ts] =>
             specialize (Hh g); specialize (Ho g); simpl in Hh, Ho
         end;
     try done; try lia;
     try (eapply logs_snoc; [exact Hlogs|reflexivity])).
Qed.

Lemma inv_step W s s' : inv W s -> step W s s' -> inv W s'.
Proof.
  intros Hinv [Hm|[i Ht]]; [by eapply inv_main_step|by eapply inv_task_step].
Qed.

Lemma inv_rtc W s s' : inv W s -> rtc (step W) s s' -> inv W s'.
Proof.
  intros Hinv Hrtc. induction Hrtc as [|s s1 s2 Hstep _ IH]; [done|].
  apply IH. by eapply inv_step.
Qed.

Lemma inv_reachable W s : reachable W s -> inv W s.
Proof. apply inv_rtc, inv_init. Qed.

(** ** How steps act on one goroutine *)

Lemma unfinished_zero_all_finished (ts : list task) :
  count outstanding ts = 0 -> forall t, t ∈ ts -> tpc t = TFinished.
Proof.
  intros Hc t [i Hi]%list_elem_of_lookup.
  apply outstanding_finished. by eapply count_zero_lookup.
Qed.

Lemma all_finished_unfinished_zero (ts : list task) :
  (forall t, t ∈ ts -> tpc t = TFinished) -> count outstanding ts = 0.
Proof.
  induction ts as [|t ts IH]; intros Hall; simpl; [done|].
  rewrite IH by (intros t' Ht'; apply Hall; by apply list_elem_of_further).
  unfold outstanding. by rewrite (Hall t (list_elem_of_here _ _)).
Qed.

Lemma oks_elem (docs : list (result Podcast)) p : p ∈ oks docs -> Ok p ∈ docs.
Proof.
  induction docs as [|[q|e] docs IH]; simpl.
  - intros H. by apply elem_of_nil in H.
  - intros [->|H]%elem_of_cons; [apply list_elem_of_here|].
    apply list_elem_of_further, IH, H.
  - intros H. apply list_elem_of_further, IH, H.
Qed.

Lemma main_step_task_lookup W s s' i t :
  main_step W s = Some s' -> tasks s !! i = Some t -> tasks s' !! i = Some t.
Proof.
  intros Hstep Hi. unfold main_step in Hstep.
  destruct s as [pc ts sm w f lg o]; simpl in *.
  destruct pc; repeat case_match; simplify_eq; simpl; try done.
  by apply lookup_app_l_Some.
Qed.

Lemma task_step_other W j s s' i t :
  task_step W j s = Some s' -> i <> j ->
  tasks s !! i = Some t -> tasks s' !! i = Some t.
Proof.
  intros Hstep Hne Hi. unfold task_step in Hstep.
  destruct s as [pc ts sm w f lg o]; simpl in *.
  repeat case_match; simplify_eq; simpl; try done;
    by rewrite list_lookup_alter_ne.
Qed.

Lemma lookup_set_tpc i pc s p pc0 :
  tasks s !! i = Some (mkTask p pc0) ->
  tasks (set_tpc i pc s) !! i = Some (mkTask p pc).
Proof. intros Hi. simpl. by rewrite list_lookup_alter_eq, Hi. Qed.

Lemma task_step_returning W i s s' p pc :
  task_step W i s = Some s' ->
  tasks s !! i = Some (mkTask p pc) -> returning pc = true ->
  fs s' = fs s /\
  exists pc', tasks s' !! i = Some (mkTask p pc') /\ returning pc' = true.
Proof.
  intros Hstep Hi Hret. unfold task_step in Hstep.
  destruct (exited s); [done|]. rewrite Hi in Hstep. simpl in Hstep.
  destruct pc; try done; repeat case_match; simplify_eq;
    (split; [done|]); eexists; (split; [|shelve]);
    first [by eapply lookup_set_tpc | exact Hi].
  Unshelve. all: done.
Qed.

Lemma returning_step W s s' i p pc :
  step W s s' ->
  tasks s !! i = Some (mkTask p pc) -> returning pc = true ->
  exists pc', tasks s' !! i = Some (mkTask p pc') /\ returning pc' = true.
Proof.
  intros [Hm|[j Ht]] Hi Hret.
  - exists pc. split; [|done]. by eapply main_step_task_lookup.
  - destruct (decide (i = j)) as [->|Hne].
    + by eapply task_step_returning.
    + exists pc. split; [|done]. by eapply task_step_other.
Qed.

Lemma returning_rtc W s s' i p pc :
  rtc (step W) s s' ->
  tasks s !! i = Some (mkTask p pc) -> returning pc = true ->
  exists pc', tasks s' !! i = Some (mkTask p pc') /\ returning pc' = true.
Proof.
  intros Hrtc. revert pc.
  induction Hrtc as [|s s1 s2 Hstep _ IH]; intros pc Hi Hret.
  - by exists pc.
  - destruct (returning_step W s s1 i p pc Hstep Hi Hret) as (pc1 & Hi1 & Hret1).
    by eapply IH.
Qed.

(** The deferred receive never blocks: the goroutine's own token is in the
    channel. *)
Lemma release_enabled W s i p :
  inv W s -> exited s = false -> tasks s !! i = Some (mkTask p TRelease) ->
  exists s', task_step W i s = Some s' /\
    S (sem s') = sem s /\ S (executing s') = executing s /\
    tasks s' !! i = Some (mkTask p TDone) /\ fs s' = fs s.
Proof.
  intros Hinv Hex Hi.
  pose proof (inv_sem W s Hinv) as Hsem.
  pose proof (count_lookup_pos holds_token _ _ _ Hi eq_refl) as Hpos.
  at_task Hex Hi.
  destruct (sem s) as [|n] eqn:Hs; [unfold executing in Hsem; lia|].
  eexists. split; [done|].
  pose proof (count_alter holds_token (fun t => mkTask (arg t) TDone) _ _ _ Hi) as Hc.
  simpl in Hc. unfold executing. simpl.
  repeat split; try lia.
  by rewrite list_lookup_alter_eq, Hi.
Qed.

Lemma saveImage_written W img path (fs0 : FS) data err :
  os_Create W path = None ->
  jpeg_Encode W img 75 = (data, err) ->
  saveImage W img path fs0 = (<[path := data]> fs0, err).
Proof.
  intros Hc He. unfold saveImage. rewrite Hc, He.
  by rewrite insert_insert_eq.
Qed.

(** What one save does to the state, whether the encoder succeeds or not. *)
Lemma save_step_fields W s i p resized :
  exited s = false ->
  tasks s !! i = Some (mkTask p (TSave resized)) ->
  os_Create W (filepath_Join W "img" (PodlistUrl p +:+ ".jpg")) = None ->
  exists s',
    task_step W i s = Some s' /\
    fs s' = <[filepath_Join W "img" (PodlistUrl p +:+ ".jpg")
              := (jpeg_Encode W resized 75).1]> (fs s) /\
    logs s' = (logs s ++ match (jpeg_Encode W resized 75).2 with
                         | Some err => ["Failed to save image: " +:+ err]
                         | None => []
                         end)%list /\
    tasks s' !! i = Some (mkTask p TRelease) /\
    mpc s' = mpc s /\ sem s' = sem s /\ wg s' = wg s /\ out s' = out s.
Proof.
  intros Hex Hi Hc.
  destruct (jpeg_Encode W resized 75) as [data err] eqn:Henc.
  at_task Hex Hi.
  rewrite (saveImage_written W resized _ (fs s) data err Hc Henc).
  destruct err as [err|]; eexists; (split; [done|]); simpl;
    rewrite ?app_nil_r, list_lookup_alter_eq, Hi; by repeat split.
Qed.

(** ** Progress and termination *)

Lemma total_weight_app ts1 ts2 :
  total_weight (ts1 ++ ts2) = total_weight ts1 + total_weight ts2.
Proof. induction ts1 as [|t ts1 IH]; simpl; [done|]. rewrite IH. lia. Qed.

Lemma total_weight_alter g (ts : list task) i t :
  ts !! i = Some t ->
  total_weight (alter g i ts) + task_weight t = total_weight ts + task_weight (g t).
Proof.
  revert i. induction ts as [|y l IH]; intros [|i] Hi; simpl in *; try done.
  - injection Hi as ->. lia.
  - specialize (IH i Hi). unfold alter in IH. lia.
Qed.

Lemma main_step_decreases W s s' :
  main_step W s = Some s' -> steps_left W s' < steps_left W s.
Proof.
  intros Hstep. unfold main_step in Hstep.
  destruct s as [pc ts sm w f lg o]; unfold steps_left; simpl in *.
  destruct pc; repeat case_match; simplify_eq; simpl;
    rewrite ?total_weight_app; simpl; lia.
Qed.

Lemma task_step_decreases W i s s' :
  task_step W i s = Some s' -> steps_left W s' < steps_left W s.
Proof.
  intros Hstep. unfold task_step in Hstep.
  destruct s as [pc ts sm w f lg o]; unfold steps_left, exited in *; simpl in *.
  destruct (ts !! i) as [[p tp]|] eqn:Hi; [|by destruct pc].
  pose proof (fun g => total_weight_alter g ts i _ Hi) as Hw.
  unfold resizeImage in Hstep.
  destruct pc; try done;
    destruct tp; repeat case_match; simplify_eq; simpl;
    try match goal with
        | |- context [alter ?g i ts] => specialize (Hw g); simpl in Hw
        end;
    unfold task_weight in *; simpl in *; lia.
Qed.

Lemma step_decreases W s s' : step W s s' -> steps_left W s' < steps_left W s.
Proof.
  intros [Hm|[i Ht]]; [by eapply main_step_decreases|by eapply task_step_decreases].
Qed.

Lemma holder_can_step W s i t :
  inv W s -> exited s = false ->
  tasks s !! i = Some t -> outstanding t = true ->
  exists s', task_step W i s = Some s'.
Proof.
  intros Hinv Hex Hi Hout. destruct t as [p tp].
  at_task Hex Hi.
  destruct tp; try done.
  - destruct (downloadImage W (Image p)); eauto.
  - unfold resizeImage. eauto.
  - destruct (saveImage W resizedImg _ (fs s)) as [fs' [e|]]; eauto.
  - destruct (release_enabled W s i p Hinv Hex Hi) as (s' & Hs' & _).
    unfold task_step in Hs'. rewrite Hex, Hi in Hs'. simpl in Hs'. eauto.
  - destruct (wg s); eauto.
Qed.

Lemma progress W s :
  reachable W s -> exited s = false -> exists s', step W s s'.
Proof.
  intros Hr Hex. pose proof (inv_reachable W s Hr) as Hinv.
  destruct (main_step W s) as [s'|] eqn:Hm; [exists s'; by left|].
  assert (exists i t, tasks s !! i = Some t /\ outstanding t = true)
    as (i & t & Hi & Hout).
  { pose proof (inv_sem W s Hinv) as Hsem. pose proof (inv_wg W s Hinv) as Hwg.
    unfold main_step, exited, executing, unfinished in *.
    destruct (mpc s) eqn:Hpc; repeat case_match; simplify_eq; simpl in *.
    - destruct (count_pos_lookup holds_token (tasks s)) as (i & t & Hi & Ht);
        [unfold sem_cap in *; lia|].
      exists i, t. split; [done|]. by apply holds_token_outstanding.
    - apply count_pos_lookup. lia. }
  destruct (holder_can_step W s i t Hinv Hex Hi Hout) as [s' Hs'].
  exists s'. right. by exists i.
Qed.

Lemma runs_to_exit W n s :
  steps_left W s <= n -> reachable W s ->
  exists s', rtc (step W) s s' /\ exited s' = true.
Proof.
  revert s. induction n as [|n IH]; intros s Hn Hr.
  - destruct (exited s) eqn:Hex; [by exists s|].
    destruct (progress W s Hr Hex) as [s' Hs'].
    apply step_decreases in Hs'. lia.
  - destruct (exited s) eqn:Hex; [by exists s|].
    destruct (progress W s Hr Hex) as [s1 Hs1].
    destruct (IH s1) as (s' & Hrtc & Hex').
    + apply step_decreases in Hs1. lia.
    + by eapply rtc_r.
    + exists s'. split; [by eapply rtc_l|done].
Qed.

(** ** Admission control *)

(** C1: in every reachable state at most 10 goroutines hold an admission
    token.  Every element buffered in [sem] was sent by main before the go
    statement (it stands for a goroutine already started, or for the one
    main is about to start), and it leaves the channel only through the
    deferred receive a goroutine runs once its body has returned. *)
Theorem executing_at_most_pool_size W s :
  reachable W s ->
  executing s <= 10 /\
  sem s = executing s + token_in_hand (mpc s) /\
  sem s <= sem_cap.
Proof.
  intros Hr. destruct (inv_reachable W s Hr) as [Hsem Hcap _ _ _ _ _ _ _ _].
  unfold sem_cap in *. lia.
Qed.

(** Twelve records: with ten goroutines started and none finished the pool
    is full and main is blocked at the send. *)
Lemma executing_at_most_pool_size_witness :
  let s := state_of world_many sched_saturate in
  reachable world_many s /\
  executing s = 10 /\
  main_step world_many s = None /\
  (executing s <= 10 /\
   sem s = executing s + token_in_hand (mpc s) /\
   sem s <= sem_cap).
Proof.
  intros s.
  split; [apply state_of_reachable|].
  split; [vm_compute; reflexivity|].
  split; [vm_compute; reflexivity|].
  apply (executing_at_most_pool_size world_many), state_of_reachable.
Defined.

(** ** Completion barrier *)

(** C2: [wg] counts every goroutine from before it is started (line 66
    precedes lines 67-68) until its [wg.Done()] has run; [wg.Wait()] can
    return exactly when every goroutine has finished; and once it has
    returned, all goroutines have finished and there is one for each
    decodable record of the catalog, so none remains to be registered. *)
Theorem wait_returns_after_all_tasks W s :
  reachable W s ->
  wg s = unfinished s + registered_unstarted (mpc s) /\
  (mpc s = MWait ->
   (is_Some (main_step W s) <-> forall t, t ∈ tasks s -> tpc t = TFinished)) /\
  (wait_returned (mpc s) = true ->
   (forall t, t ∈ tasks s -> tpc t = TFinished) /\
   arg <$> tasks s = oks (cursor_docs W)).
Proof.
  intros Hr. destruct (inv_reachable W s Hr) as [_ _ Hwg Hwait Hdocs _ _ _ _ _].
  split; [done|]. split.
  - intros Hpc. unfold main_step. rewrite Hpc in *. simpl in Hwg.
    unfold unfinished in Hwg. split.
    + intros Hsome. apply unfinished_zero_all_finished.
      destruct (wg s); [lia|]. by destruct Hsome.
    + intros Hall. apply all_finished_unfinished_zero in Hall.
      replace (wg s) with 0 by lia. done.
  - intros Hret. split.
    + apply unfinished_zero_all_finished. by apply Hwait.
    + rewrite <- Hdocs.
      * destruct (mpc s) as [| | | | | | | | | |c]; try done;
          simpl; by rewrite app_nil_r.
      * by destruct (mpc s) as [| | | | | | | | | |[]].
Qed.

Lemma wait_returns_after_all_tasks_witness :
  let s := state_of world_mixed sched_mixed in
  reachable world_mixed s /\
  wait_returned (mpc s) = true /\
  (wg s = unfinished s + registered_unstarted (mpc s) /\
   (mpc s = MWait ->
    (is_Some (main_step world_mixed s)
     <-> forall t, t ∈ tasks s -> tpc t = TFinished)) /\
   (wait_returned (mpc s) = true ->
    (forall t, t ∈ tasks s -> tpc t = TFinished) /\
    arg <$> tasks s = oks (cursor_docs world_mixed))).
Proof.
  intros s.
  split; [apply state_of_reachable|].
  split; [vm_compute; reflexivity|].
  apply (wait_returns_after_all_tasks world_mixed), state_of_reachable.
Defined.

(** ** Fatal cursor error *)

(** C3, as the specification states it, fails: the cursor breaks after one
    record, main reaches [log.Fatalf] at line 98 while the goroutine for
    that record has not yet downloaded anything, and the process is over. *)
Lemma fatal_cursor_error_abandons_task : ~ drains_before_exit world_fatal.
Proof.
  intros Hdrain.
  assert (Hex : exited (state_of world_fatal sched_fatal) = true)
    by (vm_compute; reflexivity).
  assert (Hin : mkTask rec_ok TDownload ∈ tasks (state_of world_fatal sched_fatal))
    by (vm_compute; apply list_elem_of_here).
  assert (Herr : is_Some (cursor_Err world_fatal)) by (by eexists).
  specialize (Hdrain Herr _ (state_of_reachable _ _) Hex _ Hin).
  discriminate Hdrain.
Qed.

(** C3 (amended): when the cursor ends with an error, main never gets to
    [wg.Wait()]; at line 97 it takes one step, whatever the goroutines are
    doing, after which the process is over with status 1, the log has the
    line "Cursor error: ..." added, and goroutines, channel, WaitGroup,
    files and standard output are as they were; from then on nothing
    moves. *)
Theorem cursor_error_exits_without_waiting W err s :
  cursor_Err W = Some err ->
  reachable W s ->
  past_error_check (mpc s) = false /\
  (mpc s = MErr ->
   exists s',
     main_step W s = Some s' /\
     mpc s' = MExit 1 /\
     logs s' = (logs s ++ ["Cursor error: " +:+ err])%list /\
     tasks s' = tasks s /\ sem s' = sem s /\ wg s' = wg s /\
     fs s' = fs s /\ out s' = out s /\
     forall s'', ~ step W s' s'') /\
  (exited s = true -> forall s', ~ step W s s').
Proof.
  intros Herr Hr. split; [|split].
  - apply (inv_fatal W s (inv_reachable W s Hr)). by rewrite Herr.
  - intros Hpc. eexists. split; [unfold main_step; by rewrite Hpc, Herr|].
    simpl. repeat (split; [done|]). intros s''. by apply exited_no_step.
  - intros Hex s'. by apply exited_no_step.
Qed.

Lemma cursor_error_exits_without_waiting_witness :
  let s := state_of world_fatal sched_fatal_check in
  cursor_Err world_fatal = Some "connection lost" /\
  reachable world_fatal s /\
  mpc s = MErr /\
  tasks s = [mkTask rec_ok TDownload] /\
  (past_error_check (mpc s) = false /\
   (mpc s = MErr ->
    exists s',
      main_step world_fatal s = Some s' /\
      mpc s' = MExit 1 /\
      logs s' = (logs s ++ ["Cursor error: " +:+ "connection lost"])%list /\
      tasks s' = tasks s /\ sem s' = sem s /\ wg s' = wg s /\
      fs s' = fs s /\ out s' = out s /\
      forall s'', ~ step world_fatal s' s'') /\
   (exited s = true -> forall s', ~ step world_fatal s s')).
Proof.
  intros s.
  split; [reflexivity|]. split; [apply state_of_reachable|].
  split; [vm_compute; reflexivity|].
  split; [vm_compute; reflexivity|].
  apply (cursor_error_exits_without_waiting world_fatal "connection lost");
    [reflexivity|apply state_of_reachable].
Defined.

(** ** Download *)

(** C4, as the specification states it, fails twice over: a server answers
    404 with a picture for a body, and [downloadImage] (which never reads
    the status code) returns the decoded picture; and the line logged for a
    failed download of the record "show-42" does not have its identifier
    in it. *)
Lemma status_and_identifier_ignored :
  ~ non_2xx_fails world_404 /\ ~ failed_download_logs_identifier world_lost.
Proof.
  split.
  - intros Hfails.
    apply (Hfails "http://cdn/gone.jpg" (mkResponse 404 (Ok photo_bytes)) eq_refl).
    simpl. lia.
  - intros Hnames.
    destruct (Hnames (state_of world_lost sched_first_started) 0 rec_lost
                "failed to get image: dial tcp: no such host"
                (state_of world_lost (sched_first_started ++ [Task 0])))
      as (line & Hlast & _ & Hid); [vm_compute; reflexivity..|].
    vm_compute in Hlast. injection Hlast as <-.
    vm_compute in Hid. discriminate Hid.
Qed.

(** C4 (amended): [downloadImage] fails exactly when [http.Get] returns an
    error, or reading the body fails, or the body does not decode as an
    image; a response with a decodable body is accepted whatever its status
    code.  On failure the goroutine adds one line to the log, made of the
    locator and the error (the identifier is not in it), writes no file,
    and goes to its deferred calls; run from there it gives its token back
    to [sem], calls [wg.Done()] and is finished, with no file written and
    nothing more logged. *)
Theorem download_fails_on_transport_or_decoding W :
  (forall url,
     is_Err (downloadImage W url) <->
     is_Err (http_Get W url) \/
     exists resp, http_Get W url = Ok resp /\
       (is_Err (Body resp) \/
        exists imgData, Body resp = Ok imgData /\ is_Err (image_Decode W imgData))) /\
  (forall url resp imgData img,
     http_Get W url = Ok resp -> Body resp = Ok imgData ->
     image_Decode W imgData = Ok img ->
     downloadImage W url = Ok img) /\
  (forall s i p err,
     exited s = false ->
     tasks s !! i = Some (mkTask p TDownload) ->
     downloadImage W (Image p) = Err err ->
     exists s',
       task_step W i s = Some s' /\
       logs s' = (logs s ++ ["Failed to download image: " +:+ Image p
                               +:+ ", error: " +:+ err])%list /\
       tasks s' !! i = Some (mkTask p TRelease) /\
       fs s' = fs s /\ mpc s' = mpc s /\ sem s' = sem s /\ wg s' = wg s /\
       out s' = out s) /\
  (forall s i p err,
     reachable W s ->
     exited s = false ->
     tasks s !! i = Some (mkTask p TDownload) ->
     downloadImage W (Image p) = Err err ->
     exists s3,
       run W [Task i; Task i; Task i] s = Some s3 /\
       tasks s3 !! i = Some (mkTask p TFinished) /\
       S (sem s3) = sem s /\ S (wg s3) = wg s /\
       S (executing s3) = executing s /\ S (unfinished s3) = unfinished s /\
       fs s3 = fs s /\
       logs s3 = (logs s ++ ["Failed to download image: " +:+ Image p
                               +:+ ", error: " +:+ err])%list).
Proof.
  split; [|split; [|split]].
  - intros url. unfold downloadImage.
    destruct (http_Get W url) as [resp|e] eqn:Hget; simpl.
    + destruct (Body resp) as [imgData|e] eqn:Hbody; simpl.
      * destruct (image_Decode W imgData) as [img|e] eqn:Hdec; simpl.
        -- split; [done|]. intros [[]|(r & [= <-] & [Hb|(d & Hd & He)])].
           ++ by rewrite Hbody in Hb.
           ++ rewrite Hbody in Hd. injection Hd as <-. by rewrite Hdec in He.
        -- split; [|done]. intros _. right. exists resp. split; [done|].
           right. exists imgData. by rewrite Hdec.
      * split; [|done]. intros _. right. exists resp. split; [done|].
        left. by rewrite Hbody.
    + split; [|done]. intros _. by left.
  - intros url resp imgData img Hget Hbody Hdec. unfold downloadImage.
    by rewrite Hget, Hbody, Hdec.
  - intros s i p err Hex Hi Hdl. eexists.
    split; [at_task Hex Hi; by rewrite Hdl|]. simpl.
    rewrite list_lookup_alter_eq, Hi. by repeat split.
  - intros s i p err Hr Hex Hi Hdl.
    pose proof (inv_reachable W s Hr) as Hinv.
    pose proof (inv_sem W s Hinv) as Hsem.
    pose proof (inv_wg W s Hinv) as Hwg.
    pose proof (count_lookup_pos holds_token _ _ _ Hi eq_refl) as Hh.
    pose proof (count_lookup_pos outstanding _ _ _ Hi eq_refl) as Ho.
    unfold executing, unfinished in Hsem, Hwg.
    destruct (sem s) as [|n] eqn:Hn; [lia|].
    destruct (wg s) as [|m] eqn:Hm; [lia|].
    set (s1 := set_tpc i TRelease
                 (log_Printf ("Failed to download image: " +:+ Image p
                                +:+ ", error: " +:+ err) s)).
    set (s2 := set_tpc i TDone (set_sem n s1)).
    set (s3 := set_tpc i TFinished (set_wg m s2)).
    assert (H1 : task_step W i s = Some s1) by (at_task Hex Hi; by rewrite Hdl).
    assert (Hi1 : tasks s1 !! i = Some (mkTask p TRelease))
      by (by apply (lookup_set_tpc i TRelease (log_Printf _ s) p TDownload)).
    assert (Hex1 : exited s1 = false) by exact Hex.
    assert (H2 : task_step W i s1 = Some s2).
    { at_task Hex1 Hi1. by rewrite Hn. }
    assert (Hi2 : tasks s2 !! i = Some (mkTask p TDone))
      by (by apply (lookup_set_tpc i TDone (set_sem n s1) p TRelease)).
    assert (Hex2 : exited s2 = false) by exact Hex.
    assert (H3 : task_step W i s2 = Some s3).
    { at_task Hex2 Hi2. by rewrite Hm. }
    assert (Hi3 : tasks s3 !! i = Some (mkTask p TFinished))
      by (by apply (lookup_set_tpc i TFinished (set_wg m s2) p TDone)).
    exists s3. split; [simpl; by rewrite H1, H2, H3|].
    split; [done|].
    pose proof (count_alter holds_token (fun t => mkTask (arg t) TRelease) _ _ _ Hi) as Ha1.
    pose proof (count_alter holds_token (fun t => mkTask (arg t) TDone) _ _ _ Hi1) as Ha2.
    pose proof (count_alter holds_token (fun t => mkTask (arg t) TFinished) _ _ _ Hi2) as Ha3.
    pose proof (count_alter outstanding (fun t => mkTask (arg t) TRelease) _ _ _ Hi) as Hb1.
    pose proof (count_alter outstanding (fun t => mkTask (arg t) TDone) _ _ _ Hi1) as Hb2.
    pose proof (count_alter outstanding (fun t => mkTask (arg t) TFinished) _ _ _ Hi2) as Hb3.
    unfold executing, unfinished. simpl in *.
    repeat split; try done; lia.
Qed.

(** A 404 answer carrying HTML fails at the decoder, a 404 answer carrying
    a picture is accepted, and an unreachable host is logged with its
    locator. *)
Lemma download_fails_on_transport_or_decoding_witness :
  let s := state_of world_mixed sched_to_download in
  let line := "Failed to download image: http://nowhere/x.jpg, error: failed to get image: dial tcp: no such host" in
  is_Err (downloadImage world_mixed "http://cdn/gone.html") /\
  downloadImage world_mixed "http://cdn/gone.jpg" = Ok cover /\
  (reachable world_mixed s /\ exited s = false /\
   tasks s !! 1 = Some (mkTask rec_down TDownload) /\
   downloadImage world_mixed (Image rec_down)
   = Err "failed to get image: dial tcp: no such host") /\
  (exists s',
     task_step world_mixed 1 s = Some s' /\
     logs s' = (logs s ++ [line])%list /\
     tasks s' !! 1 = Some (mkTask rec_down TRelease) /\
     fs s' = fs s /\ mpc s' = mpc s /\ sem s' = sem s /\ wg s' = wg s /\
     out s' = out s) /\
  (exists s3,
     run world_mixed [Task 1; Task 1; Task 1] s = Some s3 /\
     tasks s3 !! 1 = Some (mkTask rec_down TFinished) /\
     S (sem s3) = sem s /\ S (wg s3) = wg s /\
     S (executing s3) = executing s /\ S (unfinished s3) = unfinished s /\
     fs s3 = fs s /\
     logs s3 = (logs s ++ [line])%list).
Proof.
  intros s line.
  destruct (download_fails_on_transport_or_decoding world_mixed) as (H1 & H2 & H3 & H4).
  split.
  { apply H1. right. exists (mkResponse 404 (Ok html_bytes)).
    split; [reflexivity|]. right. exists html_bytes. split; [reflexivity|exact I]. }
  split.
  { apply (H2 _ (mkResponse 404 (Ok photo_bytes)) photo_bytes); reflexivity. }
  split; [split; [apply state_of_reachable|repeat split; vm_compute; reflexivity]|].
  split.
  { apply (H3 s 1 rec_down "failed to get image: dial tcp: no such host");
      vm_compute; reflexivity. }
  apply (H4 s 1 rec_down "failed to get image: dial tcp: no such host");
    [apply state_of_reachable|vm_compute; reflexivity..].
Defined.

(** ** Undecodable catalog documents *)

(** C5: when [cur.Decode] fails, main takes one step after which it is back
    at [cur.Next] with the remaining documents, the log has the line
    "Failed to decode document: ..." added, and goroutines, channel,
    WaitGroup, files and standard output are as they were.  In every
    reachable state each goroutine belongs to a document that decoded, and
    unless the process was aborted the goroutines started and the records
    still to be dispatched are exactly the decodable records, in cursor
    order. *)
Theorem decode_error_skips_record W :
  (forall s err cur,
     mpc s = MNext (Err err :: cur) ->
     exists s',
       main_step W s = Some s' /\
       mpc s' = MNext cur /\
       logs s' = (logs s ++ ["Failed to decode document: " +:+ err])%list /\
       tasks s' = tasks s /\ sem s' = sem s /\ wg s' = wg s /\
       fs s' = fs s /\ out s' = out s) /\
  (forall s,
     reachable W s ->
     (forall t, t ∈ tasks s -> Ok (arg t) ∈ cursor_docs W) /\
     (aborted (mpc s) = false ->
      ((arg <$> tasks s) ++ undispatched W (mpc s))%list = oks (cursor_docs W))).
Proof.
  split.
  - intros s err cur Hpc. eexists.
    split; [unfold main_step; by rewrite Hpc|]. simpl. by repeat split.
  - intros s Hr. destruct (inv_reachable W s Hr) as [_ _ _ _ Hdocs Hpre _ _ _ _].
    split; [|done].
    intros t Ht. apply oks_elem.
    destruct Hpre as [k ->]. apply elem_of_app. left.
    apply list_elem_of_fmap. by exists t.
Qed.

Lemma decode_error_skips_record_witness :
  let s := state_of world_mixed sched_first_started in
  mpc s = MNext [Err "bson: cannot decode"; Ok rec_down; Ok rec_ok'] /\
  reachable world_mixed s /\
  (exists s',
     main_step world_mixed s = Some s' /\
     mpc s' = MNext [Ok rec_down; Ok rec_ok'] /\
     logs s' = (logs s ++ ["Failed to decode document: " +:+ "bson: cannot decode"])%list /\
     tasks s' = tasks s /\ sem s' = sem s /\ wg s' = wg s /\
     fs s' = fs s /\ out s' = out s) /\
  (forall t, t ∈ tasks s -> Ok (arg t) ∈ cursor_docs world_mixed) /\
  (aborted (mpc s) = false ->
   ((arg <$> tasks s) ++ undispatched world_mixed (mpc s))%list
   = oks (cursor_docs world_mixed)).
Proof.
  intros s.
  destruct (decode_error_skips_record world_mixed) as (H1 & H2).
  split; [vm_compute; reflexivity|].
  split; [apply state_of_reachable|].
  split; [apply H1; vm_compute; reflexivity|].
  apply H2, state_of_reachable.
Defined.

(** ** Failure isolation *)

(** C6: when the download of a goroutine fails, that step leaves the file
    system as it was and puts the goroutine at its deferred receive from
    [sem]; from then on, under any interleaving, the goroutine is only ever
    at its deferred calls, no step of it changes the file system, and its
    receive from [sem] is never blocked: it takes one element out of the
    channel, after which the goroutine no longer counts as executing. *)
Theorem failed_download_writes_nothing W s i p err :
  reachable W s ->
  exited s = false ->
  tasks s !! i = Some (mkTask p TDownload) ->
  downloadImage W (Image p) = Err err ->
  exists s1,
    task_step W i s = Some s1 /\
    fs s1 = fs s /\
    tasks s1 !! i = Some (mkTask p TRelease) /\
    forall s2, rtc (step W) s1 s2 ->
      (exists pc, tasks s2 !! i = Some (mkTask p pc) /\ returning pc = true) /\
      (forall s3, task_step W i s2 = Some s3 -> fs s3 = fs s2) /\
      (exited s2 = false -> tasks s2 !! i = Some (mkTask p TRelease) ->
       exists s3, task_step W i s2 = Some s3 /\
         S (sem s3) = sem s2 /\ S (executing s3) = executing s2 /\
         tasks s3 !! i = Some (mkTask p TDone) /\ fs s3 = fs s2).
Proof.
  intros Hr Hex Hi Hdl.
  assert (Hstep : task_step W i s
                  = Some (set_tpc i TRelease
                            (log_Printf ("Failed to download image: " +:+ Image p
                                           +:+ ", error: " +:+ err) s))).
  { at_task Hex Hi. by rewrite Hdl. }
  eexists. split; [exact Hstep|]. split; [done|].
  split; [simpl; by rewrite list_lookup_alter_eq, Hi|].
  intros s2 Hrtc.
  assert (Hi1 : tasks (set_tpc i TRelease
                  (log_Printf ("Failed to download image: " +:+ Image p
                                 +:+ ", error: " +:+ err) s)) !! i
                = Some (mkTask p TRelease))
    by (simpl; by rewrite list_lookup_alter_eq, Hi).
  destruct (returning_rtc W _ s2 i p TRelease Hrtc Hi1 eq_refl) as (pc & Hi2 & Hret).
  split; [by exists pc|]. split.
  - intros s3 Hs3. by destruct (task_step_returning W i s2 s3 p pc Hs3 Hi2 Hret).
  - intros Hex2 Hrel. apply release_enabled; [|done|done].
    apply inv_reachable. unfold reachable.
    etrans; [|exact Hrtc].
    eapply rtc_r; [exact Hr|]. right. by exists i.
Qed.

Lemma failed_download_writes_nothing_witness :
  let s := state_of world_mixed sched_to_download in
  reachable world_mixed s /\
  exited s = false /\
  tasks s !! 1 = Some (mkTask rec_down TDownload) /\
  downloadImage world_mixed (Image rec_down)
  = Err "failed to get image: dial tcp: no such host" /\
  exists s1,
    task_step world_mixed 1 s = Some s1 /\
    fs s1 = fs s /\
    tasks s1 !! 1 = Some (mkTask rec_down TRelease) /\
    forall s2, rtc (step world_mixed) s1 s2 ->
      (exists pc, tasks s2 !! 1 = Some (mkTask rec_down pc) /\ returning pc = true) /\
      (forall s3, task_step world_mixed 1 s2 = Some s3 -> fs s3 = fs s2) /\
      (exited s2 = false -> tasks s2 !! 1 = Some (mkTask rec_down TRelease) ->
       exists s3, task_step world_mixed 1 s2 = Some s3 /\
         S (sem s3) = sem s2 /\ S (executing s3) = executing s2 /\
         tasks s3 !! 1 = Some (mkTask rec_down TDone) /\ fs s3 = fs s2).
Proof.
  intros s.
  split; [apply state_of_reachable|].
  split; [vm_compute; reflexivity|].
  split; [vm_compute; reflexivity|].
  split; [vm_compute; reflexivity|].
  apply (failed_download_writes_nothing world_mixed s 1 rec_down
           "failed to get image: dial tcp: no such host");
    [apply state_of_reachable|vm_compute; reflexivity..].
Defined.

(** ** Resize, encode, persist *)




(** ** Summary and exit status *)

(** C8, as the specification states it, fails: a run whose only task
    succeeded and a run whose only task failed leave the same values in
    everything the statements after [wg.Wait()] have in scope, so no
    summary can tell one success from one failure. *)
Lemma no_counts_for_summary : ~ counts_available.
Proof.
  intros [report Hrep].
  pose proof (Hrep world_one_ok (state_of world_one_ok sched_one_ok)
                (state_of_reachable _ _) eq_refl) as H1.
  pose proof (Hrep world_one_down (state_of world_one_down sched_one_failed)
                (state_of_reachable _ _) eq_refl) as H2.
  vm_compute in H1, H2. congruence.
Qed.

(** C8 (amended): once [wg.Wait()] has returned, main prints the single
    line "All images processed." (nothing was printed before it) and the
    process ends with status 0; a non-zero status only ever comes from one
    of the calls main guards with [log.Fatalf], never from a failed task. *)
Theorem summary_printed_exit_zero W s :
  reachable W s ->
  (mpc s = MPrintln ->
   main_step W s
   = Some (set_mpc (MExit 0) (fmt_Println "All images processed." s)) /\
   out s = []) /\
  (mpc s = MExit 0 -> out s = ["All images processed."]) /\
  (forall code, mpc s = MExit code -> code <> 0%Z -> fatal_error W).
Proof.
  intros Hr. destruct (inv_reachable W s Hr) as [_ _ _ _ _ _ _ Habort Hout _].
  split; [|split].
  - intros Hpc. rewrite Hpc in Hout. split; [|done].
    unfold main_step. by rewrite Hpc.
  - intros Hpc. by rewrite Hpc in Hout.
  - intros code Hpc Hcode. apply Habort. rewrite Hpc. by destruct code.
Qed.

(** The only task failed at the download; the summary and the status are
    the same as ever. *)
Lemma summary_printed_exit_zero_witness :
  let s := state_of world_one_down sched_one_failed in
  reachable world_one_down s /\
  mpc s = MPrintln /\
  failed_count world_one_down = 1 /\
  ((mpc s = MPrintln ->
    main_step world_one_down s
    = Some (set_mpc (MExit 0) (fmt_Println "All images processed." s)) /\
    out s = []) /\
   (mpc s = MExit 0 -> out s = ["All images processed."]) /\
   (forall code, mpc s = MExit code -> code <> 0%Z -> fatal_error world_one_down)).
Proof.
  intros s.
  split; [apply state_of_reachable|].
  split; [vm_compute; reflexivity|].
  split; [vm_compute; reflexivity|].
  apply (summary_printed_exit_zero world_one_down), state_of_reachable.
Defined.

(** ** Resize cannot fail *)

(** C9: [resizeImage] never returns an error; a goroutine at the resize
    always goes on to the save, and no reachable state has a log line
    reporting a resize failure. *)
Theorem resize_never_fails W :
  (forall img w h, ~ is_Err (resizeImage W img w h)) /\
  (forall s i p img,
     exited s = false ->
     tasks s !! i = Some (mkTask p (TResize img)) ->
     exists resized, task_step W i s = Some (set_tpc i (TSave resized) s)) /\
  (forall s, reachable W s ->
     forall line, line ∈ logs s -> resize_failure_line line = false).
Proof.
  split; [|split].
  - intros img w h. unfold resizeImage. simpl. tauto.
  - intros s i p img Hex Hi. eexists. by at_task Hex Hi.
  - intros s Hr. apply (inv_logs W s (inv_reachable W s Hr)).
Qed.

Lemma resize_never_fails_witness :
  let s := state_of world_one_ok sched_to_resize in
  let final := state_of world_mixed sched_mixed in
  (exited s = false /\ tasks s !! 0 = Some (mkTask rec_ok (TResize cover))) /\
  (exists resized, task_step world_one_ok 0 s = Some (set_tpc 0 (TSave resized) s)) /\
  reachable world_mixed final /\
  length (logs final) = 2 /\
  (forall line, line ∈ logs final -> resize_failure_line line = false).
Proof.
  intros s final.
  destruct (resize_never_fails world_one_ok) as (_ & H2 & _).
  destruct (resize_never_fails world_mixed) as (_ & _ & H3).
  split; [repeat split; vm_compute; reflexivity|].
  split; [apply (H2 s 0 rec_ok cover); vm_compute; reflexivity|].
  split; [apply state_of_reachable|].
  split; [vm_compute; reflexivity|].
  apply H3, state_of_reachable.
Defined.

(** ** Persist is not atomic *)

(** C10: [saveImage] creates (truncates) the file before it encodes; when
    the encoder then fails, [saveImage] returns the error and the file is
    there with whatever the encoder had written, in place of any earlier
    content.  For the goroutine: after its save the file at its output path
    holds those bytes, every other file is as before, the file system is
    not what it was unless the file already held exactly those bytes, the
    log has the line "Failed to save image: ..." added, and the goroutine
    is at its deferred calls. *)
Theorem failed_encode_leaves_file W :
  (forall img path (fs0 : FS) data err,
     os_Create W path = None ->
     jpeg_Encode W img 75 = (data, Some err) ->
     saveImage W img path fs0 = (<[path := data]> fs0, Some err) /\
     (saveImage W img path fs0).1 !! path = Some data /\
     (fs0 !! path <> Some data -> (saveImage W img path fs0).1 <> fs0)) /\
  (forall s i p resized data err,
     exited s = false ->
     tasks s !! i = Some (mkTask p (TSave resized)) ->
     os_Create W (filepath_Join W "img" (PodlistUrl p +:+ ".jpg")) = None ->
     jpeg_Encode W resized 75 = (data, Some err) ->
     exists s',
       task_step W i s = Some s' /\
       fs s' !! filepath_Join W "img" (PodlistUrl p +:+ ".jpg") = Some data /\
       (forall q, q <> filepath_Join W "img" (PodlistUrl p +:+ ".jpg") ->
          fs s' !! q = fs s !! q) /\
       (fs s !! filepath_Join W "img" (PodlistUrl p +:+ ".jpg") <> Some data ->
        fs s' <> fs s) /\
       logs s' = (logs s ++ ["Failed to save image: " +:+ err])%list /\
       tasks s' !! i = Some (mkTask p TRelease)).
Proof.
  split.
  - intros img path fs0 data err Hc He.
    rewrite (saveImage_written W img path fs0 data (Some err) Hc He). simpl.
    split; [done|]. split; [apply lookup_insert_eq|].
    intros Hne Heq. apply Hne. rewrite <- Heq. apply lookup_insert_eq.
  - intros s i p resized data err Hex Hi Hc He.
    destruct (save_step_fields W s i p resized Hex Hi Hc)
      as (s' & Hstep & Hfs & Hlogs & Hts & _).
    rewrite He in Hfs, Hlogs. simpl in Hfs, Hlogs.
    exists s'. split; [done|]. rewrite Hfs, Hlogs.
    split; [apply lookup_insert_eq|].
    split; [intros q Hq; by apply lookup_insert_ne|].
    split; [|done].
    intros Hne Heq. apply Hne. rewrite <- Heq. apply lookup_insert_eq.
Qed.

(** The disk fills up after two bytes: the picture that was at
    [img/a.jpg] is gone and a two-byte file is in its place. *)
Lemma failed_encode_leaves_file_witness :
  let s := state_of world_full sched_to_save in
  let resized := resize_Resize world_full 800 800 cover Lanczos3 in
  let err := "write img/a.jpg: no space left on device" in
  (os_Create world_full "img/a.jpg" = None /\
   jpeg_Encode world_full resized 75 = ([Byte.xff; Byte.xd8], Some err) /\
   fs s !! "img/a.jpg" = Some photo_bytes) /\
  (saveImage world_full resized "img/a.jpg" (fs s)).1 !! "img/a.jpg"
  = Some [Byte.xff; Byte.xd8] /\
  (saveImage world_full resized "img/a.jpg" (fs s)).1 <> fs s /\
  (exited s = false /\ tasks s !! 0 = Some (mkTask rec_ok (TSave resized))) /\
  exists s',
    task_step world_full 0 s = Some s' /\
    fs s' !! "img/a.jpg" = Some [Byte.xff; Byte.xd8] /\
    (forall q, q <> "img/a.jpg" -> fs s' !! q = fs s !! q) /\
    (fs s !! "img/a.jpg" <> Some [Byte.xff; Byte.xd8] -> fs s' <> fs s) /\
    logs s' = (logs s ++ ["Failed to save image: " +:+ err])%list /\
    tasks s' !! 0 = Some (mkTask rec_ok TRelease).
Proof.
  intros s resized err.
  destruct (failed_encode_leaves_file world_full) as (H1 & H2).
  destruct (H1 resized "img/a.jpg" (fs s) [Byte.xff; Byte.xd8] err)
    as (_ & H1b & H1c); [reflexivity..|].
  split; [repeat split; vm_compute; reflexivity|].
  split; [exact H1b|].
  split; [apply H1c; vm_compute; discriminate|].
  split; [repeat split; vm_compute; reflexivity|].
  apply (H2 s 0 rec_ok resized); vm_compute; reflexivity.
Defined.

(** ** What reaches the disk and the log: the invariant *)

Lemma saveImage_err_fs W img path (f1 f2 : FS) :
  (saveImage W img path f1).2 = (saveImage W img path f2).2.
Proof.
  unfold saveImage. destruct (os_Create W path); [done|].
  by destruct (jpeg_Encode W img 75).
Qed.

Lemma saveImage_frame W img path (f : FS) q :
  q <> path -> (saveImage W img path f).1 !! q = f !! q.
Proof.
  intros Hq. unfold saveImage. destruct (os_Create W path); [done|].
  destruct (jpeg_Encode W img 75) as [data err]. simpl.
  by rewrite !lookup_insert_ne.
Qed.

Lemma saveImage_cases W img path (f : FS) :
  (is_Some (os_Create W path) /\ (saveImage W img path f).1 = f /\
   is_Some (saveImage W img path f).2) \/
  (os_Create W path = None /\
   (saveImage W img path f).1 = <[path := (jpeg_Encode W img 75).1]> f /\
   (saveImage W img path f).2 = (jpeg_Encode W img 75).2).
Proof.
  unfold saveImage. destruct (os_Create W path) as [e|] eqn:Hc.
  - left. simpl. eauto.
  - right. destruct (jpeg_Encode W img 75) as [data err]. simpl.
    by rewrite insert_insert_eq.
Qed.

Lemma writes_of_download W p img :
  downloadImage W (Image p) = Ok img ->
  writes W p =
  match os_Create W (output_path W p) with
  | Some _ => None
  | None => Some (output_path W p,
                  (jpeg_Encode W (resize_Resize W 800 800 img Lanczos3) 75).1)
  end.
Proof.
  intros Hdl. unfold writes, resizeImage. rewrite Hdl.
  destruct (saveImage_cases W (resize_Resize W 800 800 img Lanczos3)
              (output_path W p) ∅) as [([e He] & Hfs & _)|(Hc & Hfs & _)].
  - rewrite Hfs, He. by rewrite lookup_empty.
  - rewrite Hfs, Hc. by rewrite lookup_insert_eq.
Qed.

Lemma writes_of_failed_download W p err :
  downloadImage W (Image p) = Err err -> writes W p = None.
Proof. intros Hdl. unfold writes. by rewrite Hdl. Qed.

Lemma writes_path W p q d : writes W p = Some (q, d) -> q = output_path W p.
Proof.
  unfold writes. destruct (downloadImage W (Image p)); [|done].
  destruct (resizeImage W a 800 800); [|done].
  destruct (_ !! _); [|done]. simpl. by intros [= <- _].
Qed.

Lemma files_ok_iff W (D D' : Podcast -> Prop) (f : FS) :
  (forall p, D' p <-> D p) -> files_ok W D f -> files_ok W D' f.
Proof.
  intros HD Hok q. destruct (Hok q) as [[Hq Hno]|(p & d & Hp & Hw & Hq)].
  - left. split; [done|]. intros p d Hp. apply Hno. by apply HD.
  - right. exists p, d. split; [by apply HD|done].
Qed.

Lemma files_ok_add_none W (D : Podcast -> Prop) (f : FS) p0 :
  writes W p0 = None -> files_ok W D f ->
  files_ok W (fun p => D p \/ p = p0) f.
Proof.
  intros Hw0 Hok q. destruct (Hok q) as [[Hq Hno]|(p & d & Hp & Hw & Hq)].
  - left. split; [done|]. intros p d [Hp| ->]; [by apply Hno|by rewrite Hw0].
  - right. exists p, d. eauto.
Qed.

Lemma files_ok_add_write W (D : Podcast -> Prop) (f : FS) p0 q0 d0 :
  writes W p0 = Some (q0, d0) -> files_ok W D f ->
  files_ok W (fun p => D p \/ p = p0) (<[q0 := d0]> f).
Proof.
  intros Hw0 Hok q. destruct (decide (q = q0)) as [->|Hne].
  - right. exists p0, d0. split; [by right|]. split; [done|]. apply lookup_insert_eq.
  - rewrite lookup_insert_ne by done.
    destruct (Hok q) as [[Hq Hno]|(p & d & Hp & Hw & Hq)].
    + left. split; [done|]. intros p d [Hp| ->]; [by apply Hno|].
      rewrite Hw0. congruence.
    + right. exists p, d. eauto.
Qed.

Lemma done_with_main_step W s s' p :
  main_step W s = Some s' -> (done_with s' p <-> done_with s p).
Proof.
  intros Hstep. unfold main_step in Hstep.
  destruct s as [pc ts sm w f lg o]; unfold done_with; simpl in *.
  destruct pc; repeat case_match; simplify_eq; simpl; try done.
  split.
  - intros (i & t & Hi & Hret & Harg).
    apply lookup_app_Some in Hi as [Hi|[_ Hi]]; [by exists i, t|].
    apply list_lookup_singleton_Some in Hi as [_ <-]. done.
  - intros (i & t & Hi & Hret & Harg). exists i, t.
    split; [by apply lookup_app_l_Some|done].
Qed.

Lemma done_with_set_tpc s j pc t p :
  tasks s !! j = Some t ->
  (done_with (set_tpc j pc s) p <->
   (exists i t', i <> j /\ tasks s !! i = Some t' /\ returning (tpc t') = true /\ arg t' = p)
   \/ (returning pc = true /\ arg t = p)).
Proof.
  intros Hj. unfold done_with. simpl. split.
  - intros (i & t' & Hi & Hret & Harg).
    destruct (decide (i = j)) as [->|Hne].
    + rewrite list_lookup_alter_eq, Hj in Hi. simpl in Hi.
      injection Hi as <-. simpl in *. by right.
    + rewrite list_lookup_alter_ne in Hi by done. left. by exists i, t'.
  - intros [(i & t' & Hne & Hi & Hret & Harg)|[Hret Harg]].
    + exists i, t'. by rewrite list_lookup_alter_ne.
    + exists j, (mkTask (arg t) pc). by rewrite list_lookup_alter_eq, Hj.
Qed.

Lemma done_with_moves_on s j pc t p :
  tasks s !! j = Some t -> returning pc = true ->
  (done_with (set_tpc j pc s) p <-> done_with s p \/ p = arg t).
Proof.
  intros Hj Hpc. rewrite (done_with_set_tpc s j pc t p Hj). split.
  - intros [(i & t' & _ & Hi & Hret & Harg)|[_ Harg]]; [left; by exists i, t'|by right].
  - intros [(i & t' & Hi & Hret & Harg)| ->]; [|by right].
    destruct (decide (i = j)) as [->|Hne].
    + right. split; [done|]. congruence.
    + left. by exists i, t'.
Qed.

Lemma done_with_stays s j pc t p :
  tasks s !! j = Some t -> returning pc = false -> returning (tpc t) = false ->
  (done_with (set_tpc j pc s) p <-> done_with s p).
Proof.
  intros Hj Hpc Ht. rewrite (done_with_set_tpc s j pc t p Hj). split.
  - intros [(i & t' & _ & Hi & Hret & Harg)|[Hret _]]; [by exists i, t'|congruence].
  - intros (i & t' & Hi & Hret & Harg). left. exists i, t'.
    split; [|done]. intros ->. congruence.
Qed.

Lemma task_step_cases W i s s' :
  inv W s -> task_step W i s = Some s' ->
  exists t, tasks s !! i = Some t /\ exited s = false /\
    ((tpc t = TDownload /\ exists err,
        downloadImage W (Image (arg t)) = Err err /\
        s' = set_tpc i TRelease
               (log_Printf ("Failed to download image: " +:+ Image (arg t)
                              +:+ ", error: " +:+ err) s)) \/
     (tpc t = TDownload /\ exists img,
        downloadImage W (Image (arg t)) = Ok img /\
        s' = set_tpc i (TResize img) s) \/
     (exists img, tpc t = TResize img /\
        s' = set_tpc i (TSave (resize_Resize W 800 800 img Lanczos3)) s) \/
     (exists r err, tpc t = TSave r /\
        (saveImage W r (output_path W (arg t)) (fs s)).2 = Some err /\
        s' = set_tpc i TRelease
               (log_Printf ("Failed to save image: " +:+ err)
                  (set_fs (saveImage W r (output_path W (arg t)) (fs s)).1 s))) \/
     (exists r, tpc t = TSave r /\
        (saveImage W r (output_path W (arg t)) (fs s)).2 = None /\
        s' = set_tpc i TRelease
               (set_fs (saveImage W r (output_path W (arg t)) (fs s)).1 s)) \/
     (tpc t = TRelease /\ exists n, sem s = S n /\ s' = set_tpc i TDone (set_sem n s)) \/
     (tpc t = TDone /\ exists n, wg s = S n /\ s' = set_tpc i TFinished (set_wg n s))).
Proof.
  intros Hinv Hstep. unfold task_step in Hstep.
  destruct (exited s) eqn:Hex; [done|].
  destruct (tasks s !! i) as [t|] eqn:Hi; [|done].
  exists t. split; [done|]. split; [done|].
  destruct t as [p tp]; simpl in *. destruct tp.
  - destruct (downloadImage W (Image p)) as [img|err] eqn:Hdl; simplify_eq.
    + right. left. eauto.
    + left. eauto.
  - unfold resizeImage in Hstep. simplify_eq. right. right. left. eauto.
  - unfold output_path.
    destruct (saveImage W resizedImg _ (fs s)) as [fs' [err|]] eqn:Hsave;
      simplify_eq; simpl.
    + do 3 right. left. exists resizedImg, err. by rewrite Hsave.
    + do 4 right. left. exists resizedImg. by rewrite Hsave.
  - destruct (sem s) as [|n] eqn:Hs; simplify_eq. do 5 right. left. eauto.
  - destruct (wg s) as [|n] eqn:Hw; simplify_eq.
    + pose proof (inv_wg W s Hinv) as Hwg.
      pose proof (count_lookup_pos outstanding _ _ _ Hi eq_refl) as Hpos.
      unfold unfinished in Hwg. lia.
    + do 6 right. eauto.
  - done.
Qed.

Lemma io_init W : inv_io W (init W).
Proof.
  split; simpl; try done.
  - intros t Ht. exfalso. by eapply not_elem_of_nil.
  - intros q. left. split; [done|]. intros p d (i & t & Hi & _). done.
Qed.

Lemma main_step_effects W s s' :
  main_step W s = Some s' ->
  fs s' = fs s /\
  (tasks s' = tasks s \/ exists p, tasks s' = (tasks s ++ [mkTask p TDownload])%list).
Proof.
  intros Hstep. unfold main_step in Hstep.
  destruct s as [pc ts sm w f lg o]; simpl in *.
  destruct pc; repeat case_match; simplify_eq; simpl; eauto.
Qed.

Lemma io_main_step W s s' : inv_io W s -> main_step W s = Some s' -> inv_io W s'.
Proof.
  intros [Hcarry Hlogs Hfiles Hcode Hpassed Hsetup] Hstep.
  destruct (main_step_effects W s s' Hstep) as [Hfs Hts].
  split.
  - intros t Ht. destruct Hts as [Hts|[p Hts]]; rewrite Hts in Ht.
    + by apply Hcarry.
    + apply elem_of_app in Ht as [Ht|Ht%list_elem_of_singleton]; [by apply Hcarry|].
      by subst.
  - clear Hfiles Hcarry Hsetup Hcode Hpassed Hts Hfs. unfold main_step in Hstep.
    destruct s as [pc ts sm w f lg o]; simpl in *.
    destruct pc; repeat case_match; simplify_eq; simpl in *;
      rewrite ?length_app, ?count_app; simpl; try done;
      try (intros _; specialize (Hlogs eq_refl); lia).
  - rewrite Hfs. eapply files_ok_iff; [|exact Hfiles].
    intros p. by apply done_with_main_step with W.
  - clear -Hstep. unfold main_step in Hstep.
    destruct s as [pc ts sm w f lg o]; simpl in *.
    destruct pc; repeat case_match; simplify_eq; simpl; intros c [= <-]; eauto.
  - clear -Hstep Hpassed. unfold main_step in Hstep.
    destruct s as [pc ts sm w f lg o]; unfold setup_failed in *; simpl in *.
    destruct pc; repeat case_match; simplify_eq; simpl; try done.
    simpl in Hpassed. destruct Hpassed as [Hc Hf]. unfold setup_failed.
    intros [[e' He]|[[e' He]|[e' He]]]; congruence.
  - intros Hfail. specialize (Hsetup Hfail). clear -Hstep Hpassed Hsetup Hfail.
    unfold main_step in Hstep.
    destruct s as [pc ts sm w f lg o]; unfold setup_failed, exited in *; simpl in *.
    destruct Hsetup as (Hb & -> & -> & -> & -> & -> & Hl).
    destruct pc; repeat case_match; simplify_eq; simpl in *; try done;
      rewrite ?length_app; simpl; repeat split; simplify_eq; try done; try lia.
    exfalso. simpl in Hpassed. destruct Hpassed as [Hc Hf].
    destruct Hfail as [[e' He]|[[e' He]|[e' He]]]; congruence.
Qed.

Lemma task_succeeds_save W p img (f : FS) :
  downloadImage W (Image p) = Ok img ->
  task_succeeds W p
  = match (saveImage W (resize_Resize W 800 800 img Lanczos3) (output_path W p) f).2 with
    | Some _ => false
    | None => true
    end.
Proof.
  intros Hdl. unfold task_succeeds, resizeImage. rewrite Hdl.
  by rewrite (saveImage_err_fs W _ _ ∅ f).
Qed.

Lemma task_succeeds_failed_download W p err :
  downloadImage W (Image p) = Err err -> task_succeeds W p = false.
Proof. intros Hdl. unfold task_succeeds. by rewrite Hdl. Qed.

Lemma elem_of_set_tpc i pc s t' :
  t' ∈ tasks (set_tpc i pc s) ->
  t' ∈ tasks s \/ exists t, tasks s !! i = Some t /\ t' = mkTask (arg t) pc.
Proof.
  simpl. intros [j Hj]%list_elem_of_lookup.
  destruct (decide (i = j)) as [->|Hne].
  - rewrite list_lookup_alter_eq in Hj.
    destruct (tasks s !! j) as [t|] eqn:Ht; [|done].
    right. exists t. simpl in Hj. by injection Hj as <-.
  - rewrite list_lookup_alter_ne in Hj by done.
    left. apply list_elem_of_lookup. by exists j.
Qed.

Lemma files_ok_moves_on W s i pc t (f : FS) :
  tasks s !! i = Some t -> returning pc = true ->
  files_ok W (fun p => done_with s p \/ p = arg t) f ->
  files_ok W (done_with (set_tpc i pc s)) f.
Proof.
  intros Hi Hpc. apply files_ok_iff. intros p. by apply (done_with_moves_on s i pc t).
Qed.

Lemma files_ok_stays W s i pc t (f : FS) :
  tasks s !! i = Some t -> returning pc = false -> returning (tpc t) = false ->
  files_ok W (done_with s) f ->
  files_ok W (done_with (set_tpc i pc s)) f.
Proof.
  intros Hi Hpc Ht. apply files_ok_iff. intros p. by apply (done_with_stays s i pc t).
Qed.

Lemma files_ok_already W s t i (f : FS) :
  tasks s !! i = Some t -> returning (tpc t) = true ->
  files_ok W (done_with s) f ->
  files_ok W (fun p => done_with s p \/ p = arg t) f.
Proof.
  intros Hi Ht. apply files_ok_iff. intros p. split; [|by left].
  intros [Hd| ->]; [done|]. by exists i, t.
Qed.

Lemma logged_failure_eq W p pc :
  logged_failure W (mkTask p pc) = returning pc && negb (task_succeeds W p).
Proof. done. Qed.

Lemma io_task_step W i s s' :
  inv W s -> inv_io W s -> task_step W i s = Some s' -> inv_io W s'.
Proof.
  intros Hinv [Hcarry Hlogs Hfiles Hcode Hpassed Hsetup] Hstep.
  destruct (task_step_cases W i s s' Hinv Hstep) as (t & Hi & Hex & Hcases).
  assert (Hct : carries_own_image W t)
    by (apply Hcarry, list_elem_of_lookup; by exists i).
  assert (Hmpc : mpc s' = mpc s)
    by (destruct Hcases as
         [(_ & ? & _ & ->)|[(_ & ? & _ & ->)|[(? & _ & ->)|[(? & ? & _ & _ & ->)|
          [(? & _ & _ & ->)|[(_ & ? & _ & ->)|(_ & ? & _ & ->)]]]]]]; done).
  assert (Hnx : forall c, mpc s <> MExit c)
    by (intros c Hc; unfold exited in Hex; by rewrite Hc in Hex).
  pose proof (fun g => count_alter (logged_failure W) g (tasks s) i t Hi) as Hcount.
  destruct t as [p tp]. unfold carries_own_image in Hct. simpl in *.
  split.
  - (* carried images *)
    intros t' Ht'.
    assert (t' ∈ tasks s \/ exists pc', t' = mkTask p pc' /\
              tasks s' !! i = Some (mkTask p pc')) as [Hold|(pc' & -> & Hnew)].
    { destruct Hcases as
        [(_ & ? & _ & ->)|[(_ & ? & _ & ->)|[(? & _ & ->)|[(? & ? & _ & _ & ->)|
         [(? & _ & _ & ->)|[(_ & ? & _ & ->)|(_ & ? & _ & ->)]]]]]];
        (apply elem_of_set_tpc in Ht' as [Ht'|(t0 & Ht0 & ->)];
         [by left|right]); simpl in Ht0; rewrite Hi in Ht0; injection Ht0 as <-;
        simpl; eexists; (split; [done|]); by rewrite list_lookup_alter_eq, Hi. }
    { by apply Hcarry. }
    destruct Hcases as
      [(_ & ? & _ & ->)|[(-> & img & Hdl & ->)|[(img & -> & ->)|[(? & ? & _ & _ & ->)|
       [(? & _ & _ & ->)|[(_ & ? & _ & ->)|(_ & ? & _ & ->)]]]]]];
      simpl in Hnew; rewrite list_lookup_alter_eq, Hi in Hnew; simpl in Hnew;
      injection Hnew as <-; unfold carries_own_image; simpl; eauto.
  - (* log lines *)
    rewrite Hmpc. intros Hab. specialize (Hlogs Hab).
    destruct Hcases as
      [(-> & err & Hdl & ->)|[(-> & img & Hdl & ->)|[(img & -> & ->)|
       [(r & err & -> & Hsave & ->)|[(r & -> & Hsave & ->)|
        [(-> & n & Hn & ->)|(-> & n & Hn & ->)]]]]]]; simpl in *;
      match goal with
      | |- context [alter ?g i (tasks s)] =>
          specialize (Hcount g); simpl in Hcount;
          rewrite ?logged_failure_eq in Hcount; simpl in Hcount
      end;
      rewrite ?length_app; simpl.
    + rewrite (task_succeeds_failed_download W p err Hdl) in Hcount.
      simpl in Hcount. lia.
    + lia.
    + lia.
    + destruct Hct as (img & Hdl & ->).
      rewrite (task_succeeds_save W p img (fs s) Hdl), Hsave in Hcount.
      simpl in Hcount. lia.
    + destruct Hct as (img & Hdl & ->).
      rewrite (task_succeeds_save W p img (fs s) Hdl), Hsave in Hcount.
      simpl in Hcount. lia.
    + lia.
    + lia.
  - (* files *)
    destruct Hcases as
      [(-> & err & Hdl & ->)|[(-> & img & Hdl & ->)|[(img & -> & ->)|
       [(r & err & -> & Hsave & ->)|[(r & -> & Hsave & ->)|
        [(-> & n & Hn & ->)|(-> & n & Hn & ->)]]]]]].
    + eapply (files_ok_moves_on W (log_Printf _ s)); [exact Hi|done|].
      apply (files_ok_add_none W (done_with s)); [|done].
      by eapply writes_of_failed_download.
    + by eapply (files_ok_stays W s); [exact Hi|..].
    + by eapply (files_ok_stays W s); [exact Hi|..].
    + destruct Hct as (img & Hdl & ->).
      eapply (files_ok_moves_on W (log_Printf _ (set_fs _ s))); [exact Hi|done|].
      pose proof (writes_of_download W p img Hdl) as Hw. simpl.
      destruct (saveImage_cases W (resize_Resize W 800 800 img Lanczos3)
                  (output_path W p) (fs s)) as [([e He] & -> & _)|(Hc & -> & _)].
      * rewrite He in Hw. by apply (files_ok_add_none W (done_with s)).
      * rewrite Hc in Hw. by apply (files_ok_add_write W (done_with s)).
    + destruct Hct as (img & Hdl & ->).
      eapply (files_ok_moves_on W (set_fs _ s)); [exact Hi|done|].
      pose proof (writes_of_download W p img Hdl) as Hw. simpl.
      destruct (saveImage_cases W (resize_Resize W 800 800 img Lanczos3)
                  (output_path W p) (fs s)) as [([e He] & -> & _)|(Hc & -> & _)].
      * rewrite He in Hw. by apply (files_ok_add_none W (done_with s)).
      * rewrite Hc in Hw. by apply (files_ok_add_write W (done_with s)).
    + eapply (files_ok_moves_on W (set_sem _ s)); [exact Hi|done|].
      by eapply (files_ok_already W s _ i).
    + eapply (files_ok_moves_on W (set_wg _ s)); [exact Hi|done|].
      by eapply (files_ok_already W s _ i).
  - intros c Hc. rewrite Hmpc in Hc. by destruct (Hnx c).
  - by rewrite Hmpc.
  - intros Hfail. destruct (Hsetup Hfail) as (_ & Hts & _).
    by rewrite Hts in Hi.
Qed.

Lemma io_step W s s' : inv W s -> inv_io W s -> step W s s' -> inv_io W s'.
Proof.
  intros Hinv Hio [Hm|[i Ht]]; [by eapply io_main_step|by eapply io_task_step].
Qed.

Lemma io_reachable W s : reachable W s -> inv_io W s.
Proof.
  revert s. apply rtc_ind_r; [apply io_init|].
  intros s1 s2 Hr Hstep IH.
  eapply io_step; [|exact IH|exact Hstep]. by apply inv_reachable.
Qed.

Lemma done_with_in_docs W s p :
  reachable W s -> done_with s p -> p ∈ oks (cursor_docs W).
Proof.
  intros Hr (i & t & Hi & _ & <-).
  destruct (inv_prefix W s (inv_reachable W s Hr)) as [k ->].
  apply elem_of_app. left. apply list_elem_of_fmap. exists t.
  split; [done|]. apply list_elem_of_lookup. by exists i.
Qed.

Lemma done_with_all W s p :
  reachable W s -> wait_returned (mpc s) = true ->
  (done_with s p <-> p ∈ oks (cursor_docs W)).
Proof.
  intros Hr Hret. split; [by apply done_with_in_docs|].
  pose proof (inv_reachable W s Hr) as Hinv.
  pose proof (inv_wait W s Hinv Hret) as Hfin.
  pose proof (inv_docs W s Hinv) as Hdocs.
  rewrite <- Hdocs by (by destruct (mpc s) as [| | | | | | | | | |[]]).
  replace (undispatched W (mpc s)) with (@nil Podcast)
    by (by destruct (mpc s) as [| | | | | | | | | |[]]).
  rewrite app_nil_r.
  intros (t & -> & [i Hi]%list_elem_of_lookup)%list_elem_of_fmap.
  exists i, t. split; [done|]. split; [|done].
  rewrite (unfinished_zero_all_finished _ Hfin t); [done|].
  apply list_elem_of_lookup. by exists i.
Qed.

Lemma final_file_of_writer W s p q d :
  outputs_agree W -> reachable W s -> wait_returned (mpc s) = true ->
  p ∈ oks (cursor_docs W) -> writes W p = Some (q, d) -> fs s !! q = Some d.
Proof.
  intros Hagree Hr Hret Hp Hw.
  destruct (io_files W s (io_reachable W s Hr) q)
    as [[_ Hno]|(p' & d' & Hp' & Hw' & Hq)].
  - exfalso. apply (Hno p d); [|done]. by apply (done_with_all W).
  - rewrite Hq. f_equal. apply (Hagree p' p q d' d); try done.
    by eapply done_with_in_docs.
Qed.

Lemma final_file_untouched W s q :
  reachable W s ->
  (forall p d, p ∈ oks (cursor_docs W) -> writes W p <> Some (q, d)) ->
  fs s !! q = initial_fs W !! q.
Proof.
  intros Hr Hno.
  destruct (io_files W s (io_reachable W s Hr) q)
    as [[Hq _]|(p' & d' & Hp' & Hw' & Hq)]; [done|].
  exfalso. apply (Hno p' d'); [|done]. by eapply done_with_in_docs.
Qed.

Lemma count_logged_all_returned W (ts : list task) :
  (forall t, t ∈ ts -> tpc t = TFinished) ->
  count (logged_failure W) ts
  = count (fun p => negb (task_succeeds W p)) (arg <$> ts).
Proof.
  induction ts as [|t ts IH]; intros Hall; simpl; [done|].
  rewrite IH by (intros t' Ht'; apply Hall; by apply list_elem_of_further).
  unfold logged_failure. by rewrite (Hall t (list_elem_of_here _ _)).
Qed.


Lemma one_log_line_count W s :
  reachable W s -> wait_returned (mpc s) = true ->
  length (logs s) = errs (cursor_docs W) + failed_count W.
Proof.
  intros Hr Hret. pose proof (inv_reachable W s Hr) as Hinv.
  pose proof (io_logs W s (io_reachable W s Hr)) as Hlogs.
  pose proof (inv_wait W s Hinv Hret) as Hfin.
  pose proof (inv_docs W s Hinv) as Hdocs.
  assert (Hab : aborted (mpc s) = false)
    by (by destruct (mpc s) as [| | | | | | | | | |[]]).
  specialize (Hlogs Hab). specialize (Hdocs Hab).
  rewrite (count_logged_all_returned W (tasks s)) in Hlogs
    by (by apply unfinished_zero_all_finished).
  unfold failed_count. rewrite <- Hdocs.
  replace (undispatched W (mpc s)) with (@nil Podcast)
    by (by destruct (mpc s) as [| | | | | | | | | |[]]).
  rewrite app_nil_r.
  replace (errs_left W (mpc s)) with 0 in Hlogs
    by (by destruct (mpc s) as [| | | | | | | | | |[]]).
  lia.
Qed.



Lemma world_mixed_outputs_agree : outputs_agree world_mixed.
Proof.
  intros p p' q d d' Hp Hp' Hw Hw'.
  assert (Hall : forall r x y, r ∈ oks (cursor_docs world_mixed) ->
            writes world_mixed r = Some (x, y) -> y = jpeg_bytes).
  { intros r x y Hr Hx. simpl in Hr.
    repeat (apply elem_of_cons in Hr as [->|Hr]); try (by apply elem_of_nil in Hr);
      vm_compute in Hx; by simplify_eq. }
  rewrite (Hall p q d Hp Hw). by rewrite (Hall p' q d' Hp' Hw').
Qed.

(** ** Further properties of main.go *)

(** X1: the program cannot deadlock on its own channel and WaitGroup: in
    every reachable state of a running process, a goroutine at its
    deferred receive finds an element in [sem] and takes it, a goroutine at
    [wg.Done()] finds a positive counter (no panic) and lowers it, and
    whenever main is blocked some goroutine has not finished. *)
Theorem no_deadlock_on_sem_or_wg W s :
  reachable W s ->
  exited s = false ->
  (forall i t, tasks s !! i = Some t -> tpc t = TRelease ->
     0 < sem s /\ exists s', task_step W i s = Some s' /\ S (sem s') = sem s) /\
  (forall i t, tasks s !! i = Some t -> tpc t = TDone ->
     0 < wg s /\ exists s', task_step W i s = Some s' /\ S (wg s') = wg s /\
       mpc s' = mpc s) /\
  (main_step W s = None ->
   exists i t, tasks s !! i = Some t /\ tpc t <> TFinished).
Proof.
  intros Hr Hex. pose proof (inv_reachable W s Hr) as Hinv.
  pose proof (inv_sem W s Hinv) as Hsem. pose proof (inv_wg W s Hinv) as Hwg.
  unfold executing, unfinished in *.
  split; [|split].
  - intros i [p tp] Hi Htp. simpl in Htp. subst tp.
    pose proof (count_lookup_pos holds_token _ _ _ Hi eq_refl) as Hpos.
    split; [lia|].
    unfold task_step. rewrite Hex, Hi. simpl.
    destruct (sem s) as [|n]; [lia|]. by eexists.
  - intros i [p tp] Hi Htp. simpl in Htp. subst tp.
    pose proof (count_lookup_pos outstanding _ _ _ Hi eq_refl) as Hpos.
    split; [lia|].
    unfold task_step. rewrite Hex, Hi. simpl.
    destruct (wg s) as [|n]; [lia|]. by eexists.
  - intros Hm.
    assert (exists i t, tasks s !! i = Some t /\ outstanding t = true)
      as (i & t & Hi & Hout).
    { unfold main_step, exited, sem_cap in *.
      destruct (mpc s) eqn:Hpc; repeat case_match; simplify_eq; simpl in *.
      - destruct (count_pos_lookup holds_token (tasks s)) as (i & t & Hi & Ht);
          [lia|].
        exists i, t. split; [done|]. by apply holds_token_outstanding.
      - apply count_pos_lookup. lia. }
    exists i, t. split; [done|].
    unfold outstanding in Hout. by destruct (tpc t).
Qed.

Lemma no_deadlock_on_sem_or_wg_witness :
  let s := state_of world_mixed (sched_to_download ++ [Task 1; Task 0; Task 1]) in
  let full := state_of world_many sched_saturate in
  (reachable world_mixed s /\ exited s = false /\
   tasks s !! 1 = Some (mkTask rec_down TDone)) /\
  (0 < wg s /\ exists s', task_step world_mixed 1 s = Some s' /\ S (wg s') = wg s /\
     mpc s' = mpc s) /\
  (reachable world_many full /\ exited full = false /\
   main_step world_many full = None) /\
  exists i t, tasks full !! i = Some t /\ tpc t <> TFinished.
Proof.
  intros s full.
  destruct (no_deadlock_on_sem_or_wg world_mixed s) as (_ & H2 & _);
    [apply state_of_reachable|vm_compute; reflexivity|].
  destruct (no_deadlock_on_sem_or_wg world_many full) as (_ & _ & H3);
    [apply state_of_reachable|vm_compute; reflexivity|].
  split; [split; [apply state_of_reachable|split; vm_compute; reflexivity]|].
  split; [apply (H2 1 (mkTask rec_down TDone)); vm_compute; reflexivity|].
  split; [split; [apply state_of_reachable|split; vm_compute; reflexivity]|].
  apply H3. vm_compute. reflexivity.
Defined.

(** X2: when [mongo.Connect], [collection.Find] or [os.MkdirAll] fails,
    no goroutine is ever started, [sem] and [wg] are never touched, no file
    changes, nothing is printed, the only log line is the one of
    [log.Fatalf], and every run ends with status 1. *)
Theorem setup_failure_dispatches_nothing W s :
  setup_failed W ->
  reachable W s ->
  tasks s = [] /\ sem s = 0 /\ wg s = 0 /\
  fs s = initial_fs W /\ out s = [] /\
  length (logs s) = (if exited s then 1 else 0) /\
  (exited s = true -> mpc s = MExit 1) /\
  exists s', rtc (step W) s s' /\ mpc s' = MExit 1.
Proof.
  intros Hfail Hr.
  destruct (io_setup W s (io_reachable W s Hr) Hfail)
    as (Hb & Hts & Hsem & Hwg & Hfs & Hout & Hlogs).
  repeat (split; [done|]). split.
  - unfold exited. destruct (mpc s) as [| | | | | | | | | |c]; try done.
    simpl in Hb. by destruct c as [|[]|].
  - destruct (runs_to_exit W _ s (le_n _) Hr) as (s' & Hrtc & Hex).
    exists s'. split; [done|].
    assert (Hr' : reachable W s') by (by eapply rtc_trans).
    destruct (io_setup W s' (io_reachable W s' Hr') Hfail) as (Hb' & _).
    unfold exited in Hex. destruct (mpc s') as [| | | | | | | | | |c]; try done.
    simpl in Hb'. by destruct c as [|[]|].
Qed.

Lemma setup_failure_dispatches_nothing_witness :
  let s := state_of world_no_db [Main] in
  setup_failed world_no_db /\
  reachable world_no_db s /\
  mpc s = MExit 1 /\
  (tasks s = [] /\ sem s = 0 /\ wg s = 0 /\
   fs s = initial_fs world_no_db /\ out s = [] /\
   length (logs s) = (if exited s then 1 else 0) /\
   (exited s = true -> mpc s = MExit 1) /\
   exists s', rtc (step world_no_db) s s' /\ mpc s' = MExit 1).
Proof.
  intros s.
  assert (Hf : setup_failed world_no_db) by (left; by eexists).
  split; [exact Hf|]. split; [apply state_of_reachable|].
  split; [vm_compute; reflexivity|].
  apply (setup_failure_dispatches_nothing world_no_db s Hf), state_of_reachable.
Defined.

(** X3: the exit status tells whether one of the four calls main guards
    with [log.Fatalf] failed: a process that is over ended with status 1 if
    one of them failed and with status 0 if none did; no other status (in
    particular no panic) is possible. *)
Theorem exit_status_tells_fatal_error W s :
  reachable W s ->
  exited s = true ->
  (mpc s = MExit 0 /\ ~ fatal_error W) \/ (mpc s = MExit 1 /\ fatal_error W).
Proof.
  intros Hr Hex. pose proof (inv_reachable W s Hr) as Hinv.
  pose proof (io_reachable W s Hr) as Hio.
  unfold exited in Hex. destruct (mpc s) as [| | | | | | | | | |c] eqn:Hpc; try done.
  destruct (io_code W s Hio c Hpc) as [-> | ->].
  - left. split; [done|]. intros [Hf|[Hf|[Hf|Hf]]].
    + destruct (io_setup W s Hio) as [Hb _]; [by left|]. by rewrite Hpc in Hb.
    + destruct (io_setup W s Hio) as [Hb _]; [right; by left|]. by rewrite Hpc in Hb.
    + destruct (io_setup W s Hio) as [Hb _]; [right; by right|]. by rewrite Hpc in Hb.
    + pose proof (inv_fatal W s Hinv Hf) as Hp. by rewrite Hpc in Hp.
  - right. split; [done|]. apply (inv_abort W s Hinv). by rewrite Hpc.
Qed.

Lemma exit_status_tells_fatal_error_witness :
  let s := state_of world_fatal sched_fatal in
  reachable world_fatal s /\
  exited s = true /\
  ((mpc s = MExit 0 /\ ~ fatal_error world_fatal) \/
   (mpc s = MExit 1 /\ fatal_error world_fatal)).
Proof.
  intros s.
  split; [apply state_of_reachable|].
  split; [vm_compute; reflexivity|].
  apply (exit_status_tells_fatal_error world_fatal s);
    [apply state_of_reachable|vm_compute; reflexivity].
Defined.

(** X4: no token is lost: once [wg.Wait()] has returned, the channel [sem]
    is empty, the counter of [wg] is zero and no goroutine holds a token. *)
Theorem tokens_returned_at_completion W s :
  reachable W s ->
  wait_returned (mpc s) = true ->
  sem s = 0 /\ wg s = 0 /\ executing s = 0.
Proof.
  intros Hr Hret. destruct (inv_reachable W s Hr) as [Hsem _ Hwg Hwait _ _ _ _ _ _].
  specialize (Hwait Hret).
  assert (Hexe : executing s = 0).
  { unfold executing, unfinished in *.
    destruct (count holds_token (tasks s)) eqn:Hc; [done|].
    destruct (count_pos_lookup holds_token (tasks s)) as (i & t & Hi & Ht); [lia|].
    apply holds_token_outstanding in Ht.
    pose proof (count_lookup_pos outstanding _ _ _ Hi Ht). lia. }
  rewrite Hsem, Hwg, Hwait, Hexe.
  by destruct (mpc s) as [| | | | | | | | | |[]].
Qed.

Lemma tokens_returned_at_completion_witness :
  let s := state_of world_mixed sched_mixed in
  reachable world_mixed s /\
  wait_returned (mpc s) = true /\
  (sem s = 0 /\ wg s = 0 /\ executing s = 0).
Proof.
  intros s.
  split; [apply state_of_reachable|].
  split; [vm_compute; reflexivity|].
  apply (tokens_returned_at_completion world_mixed s);
    [apply state_of_reachable|vm_compute; reflexivity].
Defined.

(** X5: main is blocked in exactly two situations: at the send on [sem]
    while ten goroutines hold a token, and at [wg.Wait()] while a goroutine
    has not finished. *)
Theorem main_blocked_iff W s :
  reachable W s ->
  exited s = false ->
  (main_step W s = None <->
   (exists p cur, mpc s = MAcquire p cur /\ executing s = 10) \/
   (mpc s = MWait /\ 0 < unfinished s)).
Proof.
  intros Hr Hex. destruct (inv_reachable W s Hr) as [Hsem Hcap Hwg _ _ _ _ _ _ _].
  unfold main_step, exited, sem_cap in *.
  destruct (mpc s) as [| | |cur|p cur|p cur|p cur| | | |c] eqn:Hpc;
    simpl in *; try done.
  - destruct (mongo_Connect W); split; try done;
      intros [(? & ? & ? & _)|[? _]]; done.
  - destruct (collection_Find W); split; try done;
      intros [(? & ? & ? & _)|[? _]]; done.
  - destruct (os_MkdirAll W); split; try done;
      intros [(? & ? & ? & _)|[? _]]; done.
  - destruct cur as [|[q|e] cur]; split; try done;
      intros [(? & ? & ? & _)|[? _]]; done.
  - split; [done|]. intros [(? & ? & ? & _)|[? _]]; done.
  - case_decide as Hlt; split; try done.
    + intros [(? & ? & _ & He)|[? _]]; [lia|done].
    + intros _. left. exists p, cur. split; [done|lia].
  - split; [done|]. intros [(? & ? & ? & _)|[? _]]; done.
  - destruct (cursor_Err W); split; try done;
      intros [(? & ? & ? & _)|[? _]]; done.
  - destruct (wg s) eqn:Hw; split; try done.
    + intros [(? & ? & ? & _)|[_ Hu]]; [done|lia].
    + intros _. right. split; [done|lia].
  - split; [done|]. intros [(? & ? & ? & _)|[? _]]; done.
Qed.

Lemma main_blocked_iff_witness :
  let s := state_of world_many sched_saturate in
  reachable world_many s /\
  exited s = false /\
  (main_step world_many s = None <->
   (exists p cur, mpc s = MAcquire p cur /\ executing s = 10) \/
   (mpc s = MWait /\ 0 < unfinished s)).
Proof.
  intros s.
  split; [apply state_of_reachable|].
  split; [vm_compute; reflexivity|].
  apply (main_blocked_iff world_many s);
    [apply state_of_reachable|vm_compute; reflexivity].
Defined.

(** X6: a statement of one goroutine never ends the process (so
    [wg.Done()] never panics), prints nothing, starts or removes no
    goroutine, leaves every other goroutine where it was, keeps its own
    record, never adds to [sem] or [wg], and logs at most one line. *)
Theorem task_step_isolated W i s s' :
  reachable W s ->
  task_step W i s = Some s' ->
  mpc s' = mpc s /\ out s' = out s /\
  length (tasks s') = length (tasks s) /\
  (forall j, j <> i -> tasks s' !! j = tasks s !! j) /\
  (exists t t', tasks s !! i = Some t /\ tasks s' !! i = Some t' /\ arg t' = arg t) /\
  sem s' <= sem s /\ wg s' <= wg s /\
  length (logs s) <= length (logs s') <= S (length (logs s)).
Proof.
  intros Hr Hstep.
  destruct (task_step_cases W i s s' (inv_reachable W s Hr) Hstep)
    as (t & Hi & Hex & Hcases).
  destruct Hcases as
      [(_ & ? & _ & ->)|[(_ & ? & _ & ->)|[(? & _ & ->)|[(? & ? & _ & _ & ->)|
       [(? & _ & _ & ->)|[(_ & n & Hn & ->)|(_ & n & Hn & ->)]]]]]];
    simpl; rewrite ?length_alter, ?length_app; simpl;
    (split; [done|]); (split; [done|]); (split; [done|]);
    (split; [intros j Hj; by rewrite list_lookup_alter_ne|]);
    (split; [exists t; eexists; split; [done|];
             split; [by rewrite list_lookup_alter_eq, Hi|done]|]);
    lia.
Qed.

Lemma task_step_isolated_witness :
  let s := state_of world_mixed sched_to_download in
  let s' := state_of world_mixed (sched_to_download ++ [Task 1]) in
  reachable world_mixed s /\
  task_step world_mixed 1 s = Some s' /\
  (mpc s' = mpc s /\ out s' = out s /\
   length (tasks s') = length (tasks s) /\
   (forall j, j <> 1 -> tasks s' !! j = tasks s !! j) /\
   (exists t t', tasks s !! 1 = Some t /\ tasks s' !! 1 = Some t' /\ arg t' = arg t) /\
   sem s' <= sem s /\ wg s' <= wg s /\
   length (logs s) <= length (logs s') <= S (length (logs s))).
Proof.
  intros s s'.
  assert (Hstep : task_step world_mixed 1 s = Some s') by (vm_compute; reflexivity).
  split; [apply state_of_reachable|].
  split; [exact Hstep|].
  apply (task_step_isolated world_mixed 1 s s'); [apply state_of_reachable|exact Hstep].
Defined.

(** X7: as long as the process was not aborted, the log has one line for
    each undecodable document main has come to and one for each goroutine
    whose body returned with a failure, and nothing else; once [wg.Wait()]
    has returned that is one line per undecodable document plus one per
    failed task. *)
Theorem one_log_line_per_failure W s :
  reachable W s ->
  aborted (mpc s) = false ->
  length (logs s) + errs_left W (mpc s)
  = errs (cursor_docs W) + count (logged_failure W) (tasks s) /\
  (wait_returned (mpc s) = true ->
   length (logs s) = errs (cursor_docs W) + failed_count W).
Proof.
  intros Hr Hab. split.
  - by apply (io_logs W s (io_reachable W s Hr)).
  - by apply one_log_line_count.
Qed.

Lemma one_log_line_per_failure_witness :
  let s := state_of world_mixed sched_mixed in
  reachable world_mixed s /\
  aborted (mpc s) = false /\
  (errs (cursor_docs world_mixed) = 1 /\ failed_count world_mixed = 1) /\
  (length (logs s) + errs_left world_mixed (mpc s)
   = errs (cursor_docs world_mixed) + count (logged_failure world_mixed) (tasks s) /\
   (wait_returned (mpc s) = true ->
    length (logs s) = errs (cursor_docs world_mixed) + failed_count world_mixed)).
Proof.
  intros s.
  split; [apply state_of_reachable|].
  split; [vm_compute; reflexivity|].
  split; [split; vm_compute; reflexivity|].
  apply (one_log_line_per_failure world_mixed s);
    [apply state_of_reachable|vm_compute; reflexivity].
Defined.

(** X8: the program touches no file but the output files of records it
    has started a goroutine for: a file that differs from what was on disk
    at the start is at the output path of a decodable record whose
    goroutine has been started, whose download succeeded and whose file
    [os.Create] accepted; and no file that was on disk at the start is
    ever removed. *)
Theorem only_record_paths_touched W s :
  reachable W s ->
  (forall q, fs s !! q <> initial_fs W !! q ->
     exists p img,
       Ok p ∈ cursor_docs W /\
       (exists i t, tasks s !! i = Some t /\ arg t = p) /\
       q = filepath_Join W "img" (PodlistUrl p +:+ ".jpg") /\
       downloadImage W (Image p) = Ok img /\
       os_Create W q = None) /\
  (forall q, is_Some (initial_fs W !! q) -> is_Some (fs s !! q)).
Proof.
  intros Hr. pose proof (io_files W s (io_reachable W s Hr)) as Hfiles. split.
  - intros q Hne. destruct (Hfiles q) as [[Hq _]|(p & d & Hp & Hw & Hq)]; [done|].
    pose proof (writes_path W p q d Hw) as Hpath.
    destruct (downloadImage W (Image p)) as [img|err] eqn:Hdl;
      [|by rewrite (writes_of_failed_download W p err Hdl) in Hw].
    exists p, img. split; [by apply oks_elem, (done_with_in_docs W s)|].
    split; [destruct Hp as (i & t & Hi & _ & Harg); by exists i, t|].
    split; [done|]. split; [done|].
    rewrite (writes_of_download W p img Hdl) in Hw. rewrite Hpath.
    by destruct (os_Create W (output_path W p)).
  - intros q Hsome. destruct (Hfiles q) as [[Hq _]|(p & d & Hp & Hw & Hq)].
    + by rewrite Hq.
    + by rewrite Hq.
Qed.

Lemma only_record_paths_touched_witness :
  let s := state_of world_rerun sched_one_ok in
  reachable world_rerun s /\
  (initial_fs world_rerun !! "img/a.jpg" = Some photo_bytes /\
   fs s !! "img/a.jpg" = Some jpeg_bytes) /\
  ((forall q, fs s !! q <> initial_fs world_rerun !! q ->
      exists p img,
        Ok p ∈ cursor_docs world_rerun /\
        (exists i t, tasks s !! i = Some t /\ arg t = p) /\
        q = filepath_Join world_rerun "img" (PodlistUrl p +:+ ".jpg") /\
        downloadImage world_rerun (Image p) = Ok img /\
        os_Create world_rerun q = None) /\
   (forall q, is_Some (initial_fs world_rerun !! q) -> is_Some (fs s !! q))).
Proof.
  intros s.
  split; [apply state_of_reachable|].
  split; [split; vm_compute; reflexivity|].
  apply (only_record_paths_touched world_rerun s), state_of_reachable.
Defined.

(** X9: when records that share an output path write the same bytes (as
    with unique identifiers), then once [wg.Wait()] has returned every
    record whose download succeeded and whose file could be created has
    its output at its path, and every path no record writes is as it was
    at the start. *)
Theorem completed_run_files W s :
  outputs_agree W ->
  reachable W s ->
  wait_returned (mpc s) = true ->
  (forall p q d, p ∈ oks (cursor_docs W) -> writes W p = Some (q, d) ->
     fs s !! q = Some d) /\
  (forall q, (forall p d, p ∈ oks (cursor_docs W) -> writes W p <> Some (q, d)) ->
     fs s !! q = initial_fs W !! q).
Proof.
  intros Hagree Hr Hret. split.
  - intros p q d. by apply final_file_of_writer.
  - intros q. by apply final_file_untouched.
Qed.

Lemma completed_run_files_witness :
  let s := state_of world_mixed sched_mixed in
  outputs_agree world_mixed /\
  reachable world_mixed s /\
  wait_returned (mpc s) = true /\
  ((forall p q d, p ∈ oks (cursor_docs world_mixed) ->
      writes world_mixed p = Some (q, d) -> fs s !! q = Some d) /\
   (forall q, (forall p d, p ∈ oks (cursor_docs world_mixed) ->
                 writes world_mixed p <> Some (q, d)) ->
      fs s !! q = initial_fs world_mixed !! q)).
Proof.
  intros s.
  split; [apply world_mixed_outputs_agree|].
  split; [apply state_of_reachable|].
  split; [vm_compute; reflexivity|].
  apply (completed_run_files world_mixed s);
    [apply world_mixed_outputs_agree|apply state_of_reachable|vm_compute; reflexivity].
Defined.



(** X11: under the same condition, running the program again on the
    files a completed run left behind changes no file. *)
Theorem rerun_changes_nothing W s1 s2 :
  outputs_agree W ->
  reachable W s1 -> wait_returned (mpc s1) = true ->
  reachable (rerun W (fs s1)) s2 -> wait_returned (mpc s2) = true ->
  fs s2 = fs s1.
Proof.
  intros Hagree Hr1 Hret1 Hr2 Hret2.
  apply map_eq. intros q.
  destruct (io_files _ s2 (io_reachable _ s2 Hr2) q)
    as [[Hq _]|(p & d & Hp & Hw & Hq)]; [done|].
  rewrite Hq. symmetry. apply (final_file_of_writer W s1 p q d); try done.
  by apply (done_with_in_docs (rerun W (fs s1)) s2).
Qed.

Lemma rerun_changes_nothing_witness :
  let s1 := state_of world_mixed sched_mixed in
  let s2 := state_of (rerun world_mixed (fs s1)) sched_mixed_serial in
  outputs_agree world_mixed /\
  (reachable world_mixed s1 /\ wait_returned (mpc s1) = true) /\
  (reachable (rerun world_mixed (fs s1)) s2 /\ wait_returned (mpc s2) = true) /\
  fs s2 = fs s1.
Proof.
  intros s1 s2.
  split; [apply world_mixed_outputs_agree|].
  split; [split; [apply state_of_reachable|vm_compute; reflexivity]|].
  split; [split; [apply state_of_reachable|vm_compute; reflexivity]|].
  apply (rerun_changes_nothing world_mixed s1 s2);
    [apply world_mixed_outputs_agree
    |apply state_of_reachable|vm_compute; reflexivity
    |apply state_of_reachable|vm_compute; reflexivity].
Defined.

(** X12: [saveImage] changes no file other than the one at [path]; when
    [os.Create] fails it changes nothing at all and returns that error
    behind "failed to create file: "; and when [os.Create] and
    [jpeg.Encode] answer the second time as they did the first, saving
    twice leaves the same files and the same error as saving once. *)
Theorem saveImage_touches_only_its_path W img path (f : FS) :
  (forall q, q <> path -> (saveImage W img path f).1 !! q = f !! q) /\
  (forall err, os_Create W path = Some err ->
     saveImage W img path f = (f, Some ("failed to create file: " +:+ err))) /\
  saveImage W img path (saveImage W img path f).1 = saveImage W img path f.
Proof.
  split; [|split].
  - intros q. apply saveImage_frame.
  - intros err Hc. unfold saveImage. by rewrite Hc.
  - apply injective_projections; [|apply saveImage_err_fs].
    destruct (saveImage_cases W img path f) as [(_ & Hf & _)|(Hn & Hf & _)].
    + by rewrite Hf.
    + rewrite Hf.
      destruct (saveImage_cases W img path (<[path:=(jpeg_Encode W img 75).1]> f))
        as [([e He] & _)|(_ & -> & _)]; [congruence|].
      apply insert_insert_eq.
Qed.

Lemma saveImage_touches_only_its_path_witness :
  let f : FS := {[ "img/a.jpg" := photo_bytes; "img/z.jpg" := photo_bytes ]} in
  os_Create world_readonly "img/a.jpg" = Some "open img/a.jpg: permission denied" /\
  saveImage world_readonly cover "img/a.jpg" f
  = (f, Some "failed to create file: open img/a.jpg: permission denied") /\
  (saveImage world_rerun cover "img/a.jpg" f).1 !! "img/z.jpg" = f !! "img/z.jpg" /\
  saveImage world_rerun cover "img/a.jpg" (saveImage world_rerun cover "img/a.jpg" f).1
  = saveImage world_rerun cover "img/a.jpg" f.
Proof.
  intros f.
  destruct (saveImage_touches_only_its_path world_readonly cover "img/a.jpg" f)
    as (_ & H2 & _).
  destruct (saveImage_touches_only_its_path world_rerun cover "img/a.jpg" f)
    as (H1 & _ & H4).
  split; [reflexivity|].
  split; [apply (H2 "open img/a.jpg: permission denied"); reflexivity|].
  split; [apply H1; discriminate|exact H4].
Defined.
